(** * Receipt processor: validation and scoring of [ReadReceipt] (main.go)

    A shallow embedding of [ReadReceipt] from [main.go] and of the pieces of
    the Go runtime and standard library it calls: IEEE-754 binary64
    arithmetic ([float64]), [math.Mod], the float-to-int conversion,
    [strconv.Atoi], the three regular expressions, [strings.Split(s, "")],
    [errors.New] / [errors.Join], wrap-around [int] arithmetic and the
    run-time panic raised by an out-of-range slice expression.  The three
    routes of [setupRouter] and the [db] map they share follow. *)

From Stdlib Require Import ZArith List String Ascii Bool Lia.
From Stdlib Require Import Floats.SpecFloat.
From Stdlib Require FMapList FMapFacts OrderedTypeEx.
Import ListNotations.

Local Open Scope string_scope.
Local Open Scope Z_scope.

(** ** Go [int] (64 bits, two's complement) *)

Module Int64.

Definition min_int : Z := - 2 ^ 63.
Definition max_int : Z := 2 ^ 63 - 1.

(** Two's-complement wrap-around of a mathematical integer. *)
Definition wrap (z : Z) : Z := (z + 2 ^ 63) mod 2 ^ 64 - 2 ^ 63.

Definition add (a b : Z) : Z := wrap (a + b).

Definition in_range (z : Z) : bool := (min_int <=? z) && (z <=? max_int).

End Int64.

(** ** Go [float64]: IEEE-754 binary64 *)

Module F64.

Definition prec : Z := 53.
Definition emax : Z := 1024.

Definition float64 : Type := spec_float.

Definition add : float64 -> float64 -> float64 := SFadd prec emax.
Definition sub : float64 -> float64 -> float64 := SFsub prec emax.
Definition eqb : float64 -> float64 -> bool := SFeqb.

(** The float64 value of the untyped constants [0], [1] and [0.25]. *)
Definition zero : float64 := S754_zero false.
Definition one : float64 := S754_finite false 4503599627370496 (-52).
Definition quarter : float64 := S754_finite false 4503599627370496 (-54).

(** [x != y] on floats: true when either side is NaN. *)
Definition neqb (x y : float64) : bool := negb (eqb x y).

(** [math.Mod(x, y)]: the exact floating-point remainder of [x / y], with
    the sign of [x] and magnitude below [|y|]; special cases as documented:
    Mod(+-Inf, y) = NaN, Mod(NaN, y) = NaN, Mod(x, 0) = NaN,
    Mod(x, +-Inf) = x, Mod(x, NaN) = NaN.  The remainder of two finite
    floats is computed on the mantissas aligned to the smaller exponent and
    is always representable. *)
Definition Mod (x y : float64) : float64 :=
  match x, y with
  | S754_nan, _ => S754_nan
  | _, S754_nan => S754_nan
  | S754_infinity _, _ => S754_nan
  | _, S754_zero _ => S754_nan
  | _, S754_infinity _ => x
  | S754_zero _, S754_finite _ _ _ => x
  | S754_finite sx mx ex, S754_finite _ my ey =>
      let ez := Z.min ex ey in
      let X := Z.shiftl (Zpos mx) (ex - ez) in
      let Y := Z.shiftl (Zpos my) (ey - ez) in
      let R := Z.rem X Y in
      if R =? 0 then S754_zero sx
      else binary_normalize prec emax (cond_Zopp sx R) ez false
  end.

(** Truncation toward zero of a finite float, as a mathematical integer. *)
Definition trunc (s : bool) (m : positive) (e : Z) : Z :=
  cond_Zopp s (Z.shiftl (Zpos m) e).

(** The value [m * 2^e] counted in units of [2^-1074], the smallest
    positive float64: an integer for the exponents of the format. *)
Definition scaled (m : Z) (e : Z) : Z := m * 2 ^ (e + 1074).

(** [int(f)]: the fractional part is discarded.  When the truncated value
    does not fit [int] (or [f] is NaN or infinite) the Go specification
    leaves the result to the implementation; [indef] supplies it. *)
Definition to_int (indef : float64 -> Z) (f : float64) : Z :=
  match f with
  | S754_zero _ => 0
  | S754_finite s m e =>
      let t := trunc s m e in
      if Int64.in_range t then t else indef f
  | S754_infinity _ | S754_nan => indef f
  end.

(** What amd64 yields for an unrepresentable operand (the "integer
    indefinite" value 0x8000000000000000). *)
Definition indef_amd64 (_ : float64) : Z := Int64.min_int.

End F64.

Import F64.

(** ** Decimal literals

    [strconv.ParseFloat] belongs to the Go standard library; [ReadReceipt]
    only uses the value it returns (the error is discarded), so the
    embedding of [ReadReceipt] takes the parser as a parameter and the
    general statements hold for every parser.  [parseDecimal] is what
    [ParseFloat] returns on a plain decimal literal, an optional sign and
    digits with an optional point: the float64 nearest to the decimal
    number, ties to even, and infinity beyond the range.  It returns [0]
    on every other string; [ParseFloat] does so on a syntax error, but
    also reads exponents, hexadecimal literals, underscores, Inf and NaN,
    which the concrete receipts below do not use. *)

Definition is_digit (c : ascii) : bool :=
  let n := N_of_ascii c in (48 <=? n)%N && (n <=? 57)%N.

Definition digit_val (c : ascii) : Z := Z.of_N (N_of_ascii c) - 48.

(** Reads a run of digits: accumulated value, number of digits, rest. *)
Fixpoint read_digits (s : string) (acc : Z) (n : Z) : Z * Z * string :=
  match s with
  | String c s' =>
      if is_digit c then read_digits s' (10 * acc + digit_val c) (n + 1)
      else (acc, n, s)
  | EmptyString => (acc, n, s)
  end.

(** [mant * 10 ^ (- frac)], correctly rounded. *)
Definition decimal_to_float (neg : bool) (mant : Z) (frac : Z) : float64 :=
  match mant with
  | Zpos m =>
      match 10 ^ frac with
      | Zpos d => SFdiv prec emax (S754_finite neg m 0) (S754_finite false d 0)
      | _ => S754_zero false
      end
  | _ => S754_zero neg
  end.

Definition parseDecimal (s : string) : float64 :=
  let '(neg, body) :=
    match s with
    | String "-" r => (true, r)
    | String "+" r => (false, r)
    | _ => (false, s)
    end in
  let '(ip, ni, r1) := read_digits body 0 0 in
  match r1 with
  | EmptyString =>
      if ni =? 0 then zero else decimal_to_float neg ip 0
  | String "." r2 =>
      let '(m, nf, r3) := read_digits r2 ip 0 in
      match r3 with
      | EmptyString =>
          if ni + nf =? 0 then zero else decimal_to_float neg m nf
      | _ => zero
      end
  | _ => zero
  end.

(** ** Go strings (byte sequences), slicing and run-time panics *)

Definition len (s : string) : Z := Z.of_nat (String.length s).

(** The run-time panic of an out-of-range slice expression. *)
Inductive panic : Type :=
  | slice_bounds_out_of_range (lo hi length : Z)
  | nil_dereference.

(** Result of running a piece of code that may panic. *)
Inductive result (A : Type) : Type :=
  | Ok (a : A)
  | Panic (p : panic).

Arguments Ok {A} a.
Arguments Panic {A} p.

Definition bind {A B : Type} (r : result A) (k : A -> result B) : result B :=
  match r with
  | Ok a => k a
  | Panic p => Panic p
  end.

Notation "x <- c ;; k" := (bind c (fun x => k))
  (at level 61, c at next level, right associativity).

(** [s[lo:]] *)
Definition slice_from (s : string) (lo : Z) : result string :=
  if (0 <=? lo) && (lo <=? len s)
  then Ok (substring (Z.to_nat lo) (Z.to_nat (len s - lo)) s)
  else Panic (slice_bounds_out_of_range lo (len s) (len s)).

(** [s[:hi]] *)
Definition slice_to (s : string) (hi : Z) : result string :=
  if (0 <=? hi) && (hi <=? len s)
  then Ok (substring 0 (Z.to_nat hi) s)
  else Panic (slice_bounds_out_of_range 0 hi (len s)).

(** ** [strconv.Atoi]

    Base-10 integer with an optional sign.  Returns the value and whether
    the parse succeeded: [0] on a syntax error, the nearest [int] bound on
    a range error. *)
Definition Atoi (s : string) : Z * bool :=
  let '(neg, body) :=
    match s with
    | String "-" r => (true, r)
    | String "+" r => (false, r)
    | _ => (false, s)
    end in
  let '(v, n, rest) := read_digits body 0 0 in
  match rest with
  | EmptyString =>
      if n =? 0 then (0, false)
      else
        let v := if neg then - v else v in
        if v >? Int64.max_int then (Int64.max_int, false)
        else if v <? Int64.min_int then (Int64.min_int, false)
        else (v, true)
  | _ => (0, false)
  end.

(** ** Regular expressions

    The three patterns of [ReadReceipt] start with [^] and are sequences of
    literals, character classes, a counted class and a starred class.  All
    classes are ASCII, so matching bytes agrees with matching runes: a byte
    of a multi-byte or invalid sequence is outside every class. *)

Module Regexp.

Definition cclass : Type := list (ascii * ascii).

Definition in_class (c : ascii) (cl : cclass) : bool :=
  existsb (fun r => (N_of_ascii (fst r) <=? N_of_ascii c)%N
                    && (N_of_ascii c <=? N_of_ascii (snd r))%N) cl.

Inductive atom : Type :=
  | Lit (c : ascii)                 (* a literal character *)
  | Class (cl : cclass)             (* [a-b...] *)
  | Count (cl : cclass) (n : nat)   (* [a-b...]{n} *)
  | Star (cl : cclass).             (* [a-b...]* *)

(** A pattern [^ atoms] or [^ atoms $]. *)
Record regexp : Type := { atoms : list atom; end_of_text : bool }.

(** Consumes exactly [n] characters of the class. *)
Fixpoint take_class (cl : cclass) (n : nat) (s : string) : option string :=
  match n with
  | O => Some s
  | S n' =>
      match s with
      | String x s' => if in_class x cl then take_class cl n' s' else None
      | EmptyString => None
      end
  end.

Fixpoint match_here (ats : list atom) (eot : bool) (s : string) {struct ats} : bool :=
  match ats with
  | [] => if eot then match s with EmptyString => true | _ => false end else true
  | Lit c :: rest =>
      match s with
      | String x s' => Ascii.eqb x c && match_here rest eot s'
      | EmptyString => false
      end
  | Class cl :: rest =>
      match s with
      | String x s' => in_class x cl && match_here rest eot s'
      | EmptyString => false
      end
  | Count cl n :: rest =>
      match take_class cl n s with
      | Some s' => match_here rest eot s'
      | None => false
      end
  | Star cl :: rest =>
      (fix star (t : string) : bool :=
         match_here rest eot t
         || match t with
            | String x t' => in_class x cl && star t'
            | EmptyString => false
            end) s
  end.

(** [re.MatchString(s)]: the pattern is anchored at the start of the text. *)
Definition MatchString (re : regexp) (s : string) : bool :=
  match_here (atoms re) (end_of_text re) s.

End Regexp.

Import Regexp.

(** [^[0-9]{4}-[0-1][1-9]-[0-2][0-9]] *)
Definition isdate : regexp :=
  {| atoms := [Count [("0", "9")] 4; Lit "-"; Class [("0", "1")]; Class [("1", "9")];
               Lit "-"; Class [("0", "2")]; Class [("0", "9")]]%char;
     end_of_text := false |}.

(** [^[0-2][0-9]:[0-5][0-9]] *)
Definition istime : regexp :=
  {| atoms := [Class [("0", "2")]; Class [("0", "9")]; Lit ":";
               Class [("0", "5")]; Class [("0", "9")]]%char;
     end_of_text := false |}.

(** [^[a-zA-Z0-9]*$] *)
Definition isalpha : regexp :=
  {| atoms := [Star [("a", "z"); ("A", "Z"); ("0", "9")]]%char;
     end_of_text := true |}.

(** ** [strings.Split(s, "")]: one element per UTF-8 sequence *)

Module Utf8.

Definition byte (c : ascii) : Z := Z.of_N (N_of_ascii c).

Definition between (lo hi : Z) (c : ascii) : bool :=
  (lo <=? byte c) && (byte c <=? hi).

(** Size announced by the first byte and the range accepted for the
    second one ([first] and [acceptRanges] of package utf8); [None] for a
    byte that cannot start a multi-byte sequence. *)
Definition lead (c : ascii) : option (nat * Z * Z) :=
  let b := byte c in
  if (0xC2 <=? b) && (b <=? 0xDF) then Some (2%nat, 0x80, 0xBF)
  else if b =? 0xE0 then Some (3%nat, 0xA0, 0xBF)
  else if (0xE1 <=? b) && (b <=? 0xEC) then Some (3%nat, 0x80, 0xBF)
  else if b =? 0xED then Some (3%nat, 0x80, 0x9F)
  else if (0xEE <=? b) && (b <=? 0xEF) then Some (3%nat, 0x80, 0xBF)
  else if b =? 0xF0 then Some (4%nat, 0x90, 0xBF)
  else if (0xF1 <=? b) && (b <=? 0xF3) then Some (4%nat, 0x80, 0xBF)
  else if b =? 0xF4 then Some (4%nat, 0x80, 0x8F)
  else None.

(** Width of the first rune of a non-empty string
    ([utf8.DecodeRuneInString]): 1 for ASCII and for an invalid byte. *)
Definition width (s : string) : nat :=
  match s with
  | EmptyString => 0%nat
  | String c0 r =>
      match lead c0 with
      | None => 1%nat
      | Some (sz, lo, hi) =>
          match r with
          | String c1 r1 =>
              if negb (between lo hi c1) then 1%nat
              else if (sz <=? 2)%nat then 2%nat
              else
                match r1 with
                | String c2 r2 =>
                    if negb (between 0x80 0xBF c2) then 1%nat
                    else if (sz <=? 3)%nat then 3%nat
                    else
                      match r2 with
                      | String c3 _ =>
                          if negb (between 0x80 0xBF c3) then 1%nat else 4%nat
                      | EmptyString => 1%nat
                      end
                | EmptyString => 1%nat
                end
          | EmptyString => 1%nat
          end
      end
  end.

(** The elements of [strings.Split(s, "")].  An invalid byte is kept as
    it is (Go stores the replacement character for it); either way the
    element is not ASCII. *)
Fixpoint explode (fuel : nat) (s : string) : list string :=
  match fuel with
  | O => []
  | S fuel' =>
      match s with
      | EmptyString => []
      | String _ _ =>
          let w := width s in
          substring 0 w s :: explode fuel' (substring w (String.length s - w) s)
      end
  end.

Definition Split (s : string) : list string := explode (String.length s) s.

End Utf8.

(** ** Package errors *)

Set Warnings "-register-all".

Inductive error : Type :=
  | New (text : string)
  | Joined (errs : list error).

Definition newline : string := String (ascii_of_nat 10) EmptyString.

(** [e.Error()] *)
Fixpoint Error (e : error) : string :=
  match e with
  | New text => text
  | Joined errs =>
      (fix join (l : list error) : string :=
         match l with
         | [] => ""
         | [x] => Error x
         | x :: r => Error x ++ newline ++ join r
         end) errs
  end.

(** [errors.Join(errs...)]: nil arguments are dropped, nil when none is left. *)
Definition Join (errs : list (option error)) : option error :=
  match flat_map (fun o => match o with Some e => [e] | None => [] end) errs with
  | [] => None
  | l => Some (Joined l)
  end.

(** [err.Error()] on an interface value that may be nil. *)
Definition Error_of (err : option error) : result string :=
  match err with
  | Some e => Ok (Error e)
  | None => Panic nil_dereference
  end.

(** ** The receipt *)

Record Item : Type := {
  ShortDescription : string;
  Price : string
}.

Record Receipt : Type := {
  Retailer : string;
  PurchaseDate : string;
  PurchaseTime : string;
  Items : list Item;
  Total : string;
  Points : Z
}.

Definition set_Points (r : Receipt) (points : Z) : Receipt :=
  {| Retailer := Retailer r; PurchaseDate := PurchaseDate r;
     PurchaseTime := PurchaseTime r; Items := Items r; Total := Total r;
     Points := points |}.

(** ** [ReadReceipt] *)

Section ReadReceipt.

(** [strconv.ParseFloat(s, 64)], error discarded. *)
Variable ParseFloat : string -> float64.

(** Implementation-defined result of [int(f)] for an unrepresentable [f]. *)
Variable int_indef : float64 -> Z.

(** Loop over the characters of the retailer name (lines 79-85). *)
Definition retailer_loop (chars : list string) (points : Z) : Z :=
  fold_left
    (fun points ch =>
       if MatchString isalpha ch then Int64.add points 1 else points)
    chars points.

(** One iteration of the loop over the items (lines 92-121), on the
    running [total] and [points]. *)
Definition item_body (receipt : Receipt) (item : Item) (st : float64 * Z)
  : result (float64 * Z) :=
  let '(total, points) := st in
  let itemPrice := ParseFloat (Price item) in
  let total := sub total itemPrice in
  let desc := ShortDescription item in
  let points :=
    if Z.rem (len desc) 3 =? 0 then
      let price := ParseFloat (Price item) in
      let price := add price (sub one (Mod price one)) in
      Int64.add points (to_int int_indef price)
    else points in
  day <- slice_from (PurchaseDate receipt) (len (PurchaseDate receipt) - 2) ;;
  let dayint := fst (Atoi day) in
  let points := if Z.rem dayint 2 =? 1 then Int64.add points 6 else points in
  time <- slice_to (PurchaseTime receipt) 2 ;;
  let timeint := fst (Atoi time) in
  let points :=
    if (14 <=? timeint) && (timeint <? 16) then Int64.add points 10 else points in
  Ok (total, points).

(** The loop [for i < len(receipt.Items)] from item [i] on. *)
Fixpoint item_loop (receipt : Receipt) (items : list Item) (st : float64 * Z)
  : result (float64 * Z) :=
  match items with
  | [] => Ok st
  | item :: rest =>
      st' <- item_body receipt item st ;;
      item_loop receipt rest st'
  end.

(** The [else] branch (lines 46-132).  Its [err] is a new variable,
    declared by [err := errors.New("")] in the block: the function returns
    the updated receipt and, here, the final value of that block variable. *)
Definition else_block (receipt : Receipt) : result (Receipt * option error) :=
  let err := Some (New "") in
  let purchaseDate := PurchaseDate receipt in
  let err :=
    if negb (MatchString isdate purchaseDate) then
      let dateErr := Some (New "invalid Purchase Date Format ") in
      Join [err; dateErr]
    else err in
  let purchaseTime := PurchaseTime receipt in
  let err :=
    if negb (MatchString istime purchaseTime) then
      let timeErr := Some (New "invalid Purchase Time Format ") in
      Join [err; timeErr]
    else err in
  let total := ParseFloat (Total receipt) in
  let points := 0 in
  let points := if eqb (Mod total one) zero then Int64.add points 50 else points in
  let points := if eqb (Mod total quarter) zero then Int64.add points 25 else points in
  let name := Retailer receipt in
  let chars := Utf8.Split name in
  let points := retailer_loop chars points in
  let items := Z.of_nat (List.length (Items receipt)) in
  let points := Int64.add points (Z.quot items 2) in
  st <- item_loop receipt (Items receipt) (total, points) ;;
  let '(total, points) := st in
  let receipt := set_Points receipt points in
  let err :=
    if neqb total zero then
      let totalErr := Some (New "total Price does not match item prices ") in
      Join [err; totalErr]
    else err in
  msg <- Error_of err ;;
  let err := if len msg =? 0 then None else err in
  Ok (receipt, err).

(** [ReadReceipt], from the outcome of
    [json.NewDecoder(c.Request.Body).Decode(&receipt)]: the decoded receipt
    and the decoder's error.  The [err] returned on line 134 is the
    function's variable, which the [else] block never assigns. *)
Definition ReadReceipt (receipt : Receipt) (decodeErr : option error)
  : result (Receipt * option error) :=
  let err := decodeErr in
  match err with
  | Some _ => Ok (receipt, err)
  | None =>
      out <- else_block receipt ;;
      let receipt := fst out in
      Ok (receipt, err)
  end.

End ReadReceipt.

(** ** Contribution of each scoring rule

    What each rule of [ReadReceipt] adds to [points], read off the
    statement that adds it. *)

Section Rules.

Variable ParseFloat : string -> float64.
Variable int_indef : float64 -> Z.

(** Lines 68-70. *)
Definition round_dollar_points (total : float64) : Z :=
  if eqb (Mod total one) zero then 50 else 0.

(** Lines 72-74. *)
Definition quarter_points (total : float64) : Z :=
  if eqb (Mod total quarter) zero then 25 else 0.

(** Lines 76-85. *)
Definition retailer_points (name : string) : Z :=
  Z.of_nat (List.length (filter (MatchString isalpha) (Utf8.Split name))).

(** Lines 87-88. *)
Definition pair_points (items : list Item) : Z :=
  Z.quot (Z.of_nat (List.length items)) 2.

(** Lines 101-102: the value added for one price. *)
Definition rounded_price (price : float64) : Z :=
  to_int int_indef (add price (sub one (Mod price one))).

(** Lines 98-103. *)
Definition desc_points (item : Item) : Z :=
  if Z.rem (len (ShortDescription item)) 3 =? 0
  then rounded_price (ParseFloat (Price item))
  else 0.

(** Lines 105-112, for one iteration. *)
Definition day_points (purchaseDate : string) : Z :=
  match slice_from purchaseDate (len purchaseDate - 2) with
  | Ok day => if Z.rem (fst (Atoi day)) 2 =? 1 then 6 else 0
  | Panic _ => 0
  end.

(** Lines 114-121, for one iteration. *)
Definition time_points (purchaseTime : string) : Z :=
  match slice_to purchaseTime 2 with
  | Ok time =>
      let timeint := fst (Atoi time) in
      if (14 <=? timeint) && (timeint <? 16) then 10 else 0
  | Panic _ => 0
  end.

Definition item_count (r : Receipt) : Z := Z.of_nat (List.length (Items r)).

Definition desc_sum (items : list Item) : Z :=
  fold_right (fun item acc => desc_points item + acc) 0 items.

(** Sum of the rules that do not read the purchase date. *)
Definition score_without_day (r : Receipt) : Z :=
  round_dollar_points (ParseFloat (Total r))
  + quarter_points (ParseFloat (Total r))
  + retailer_points (Retailer r)
  + pair_points (Items r)
  + desc_sum (Items r)
  + item_count r * time_points (PurchaseTime r).

(** Exact (not wrapped) sum of all contributions. *)
Definition score (r : Receipt) : Z :=
  score_without_day r + item_count r * day_points (PurchaseDate r).

(** The remainder [total - price_1 - ... - price_n] of lines 65 and 93. *)
Definition remainder (r : Receipt) : float64 :=
  fold_left (fun total item => sub total (ParseFloat (Price item)))
            (Items r) (ParseFloat (Total r)).

End Rules.

(** A price the scoring handles without surprise: a float64 that is a
    zero, or finite, not negative and below [2^30]. *)
Definition small_price (p : float64) : bool :=
  valid_binary prec emax p
  && match p with
     | S754_zero _ => true
     | S754_finite false m e => Z.shiftl (Zpos m) e <? 2 ^ 30
     | _ => false
     end.

(** ** The receipts used below *)

Definition mkItem (desc price : string) : Item :=
  {| ShortDescription := desc; Price := price |}.

Definition mkReceipt (retailer date time : string) (items : list Item)
  (total : string) : Receipt :=
  {| Retailer := retailer; PurchaseDate := date; PurchaseTime := time;
     Items := items; Total := total; Points := 0 |}.

(** Two items, neither description length a multiple of 3. *)
Definition two_items : Receipt :=
  mkReceipt "" "2022-01-02" "13:01"
            [mkItem "ab" "1.00"; mkItem "ab" "1.00"] "2.00".

(** One item, description of length 3, whole-dollar price. *)
Definition whole_dollar : Receipt :=
  mkReceipt "" "2022-01-02" "13:01" [mkItem "abc" "10.00"] "10.00".

(** A price with cents on an item whose description has length 3. *)
Definition fractional_price : Receipt :=
  mkReceipt "" "2022-01-02" "13:01" [mkItem "abc" "12.25"] "12.25".

(** Empty retailer, everything else in order. *)
Definition no_retailer : Receipt :=
  mkReceipt "" "2022-01-02" "13:01" [] "0".

(** A negative price, matched by the total. *)
Definition negative_price : Receipt :=
  mkReceipt "" "2022-01-02" "13:01" [mkItem "" "-1000.5"] "-1000.5".

(** The total does not match the (empty) list of items. *)
Definition mismatch : Receipt :=
  mkReceipt "A" "2022-01-02" "13:01" [] "5".

(** Date, time and total all wrong. *)
Definition all_wrong : Receipt :=
  mkReceipt "A" "x" "y" [] "5".

(** A date that passes the format check and ends in ["-1"]. *)
Definition negative_day : Receipt :=
  mkReceipt "A" "2022-01-01-1" "13:01" [mkItem "a" "5"] "5".

(** The example of the specification: 6 points for the retailer name and
    6 for the odd day. *)
Definition target : Receipt :=
  mkReceipt "Target" "2022-01-01" "13:01"
            [mkItem "Mountain Dew 12PK" "6.49"] "6.49".

(** Two items with small prices, one of them earning the description bonus. *)
Definition target_two : Receipt :=
  mkReceipt "Target" "2022-01-01" "13:01"
            [mkItem "Mountain Dew 12PK" "6.49"; mkItem "abc" "10.00"] "16.49".

(** Four items bought at 14:33 on an even day. *)
Definition corner_market : Receipt :=
  mkReceipt "M&M Corner Market" "2022-03-20" "14:33"
            [mkItem "Gatorade" "2.25"; mkItem "Gatorade" "2.25";
             mkItem "Gatorade" "2.25"; mkItem "Gatorade" "2.25"] "9.00".

(** A one-character purchase date, one item. *)
Definition short_date : Receipt :=
  mkReceipt "A" "x" "13:01" [mkItem "a" "5"] "5".

(** ** The routes of [setupRouter] and the database [db]

    [db] is a Go map from identifiers to receipts: a finite map with
    string keys, [db[k] = v] being [DB.add] and [v, ok := db[k]] being
    [DB.find].  The handlers are given as functions of the database they
    find, returning the database they leave and the response they write;
    this describes requests served one after another (the Go map is not
    guarded against concurrent handlers). *)

Module DB := FMapList.Make(OrderedTypeEx.String_as_OT).
Module DBFacts := FMapFacts.Facts(DB).

Record URI : Type := { ID : string }.

(** The [gin.H] objects the handlers pass to [c.JSON]. *)
Inductive H : Type :=
  | H_uuid_receipt (uuid : string) (receipt : Receipt)
      (* gin.H{"uuid": uuid, "receipt": receipt} *)
  | H_msg_err (err : option error)
      (* gin.H{"msg": err} *)
  | H_msg (msg : string)
      (* gin.H{"msg": err.Error()} *)
  | H_msg_uuid (msg uuid : string)
      (* gin.H{"msg": "...", "uuid": uuid} *)
  | H_points (points : Z)
      (* gin.H{"points": receipt.Points} *)
  | H_database (database : DB.t Receipt).
      (* gin.H{"database": db} *)

(** [c.JSON(code, obj)] *)
Record response : Type := JSON { code : Z; obj : H }.


Section Router.

Variable ParseFloat : string -> float64.
Variable int_indef : float64 -> Z.

(** POST /receipts/process (lines 142-152). *)
Definition post_receipts_process (db : DB.t Receipt) (receipt : Receipt)
  (decodeErr : option error) (new_uuid : string)
  : result (DB.t Receipt * response) :=
  out <- ReadReceipt ParseFloat int_indef receipt decodeErr ;;
  let '(receipt, err) := out in
  match err with
  | None =>
      let uuid := new_uuid in
      let db := DB.add uuid receipt db in
      Ok (db, JSON 200 (H_uuid_receipt uuid receipt))
  | Some _ => Ok (db, JSON 400 (H_msg_err err))
  end.

(** GET /receipts/:id/points (lines 154-168). *)
Definition get_receipts_points (db : DB.t Receipt) (bindErr : option error)
  (uri : URI) : response :=
  match bindErr with
  | Some err => JSON 400 (H_msg (Error err))
  | None =>
      let uuid := ID uri in
      match DB.find uuid db with
      | None => JSON 400 (H_msg_uuid "That receipt does not exist." uuid)
      | Some receipt => JSON 200 (H_points (Points receipt))
      end
  end.





End Router.

(** ** Auxiliary notions for the statements *)

(** ASCII letters and digits: the class of [isalpha]. *)
Definition is_alnum (c : ascii) : bool :=
  in_class c [("a", "z"); ("A", "Z"); ("0", "9")]%char.

Fixpoint count_alnum (s : string) : nat :=
  match s with
  | EmptyString => 0%nat
  | String c r => ((if is_alnum c then 1 else 0) + count_alnum r)%nat
  end.


(** The 256 bytes. *)
Definition all_bytes : list ascii := map ascii_of_nat (seq 0 256).

(** * Properties *)

(** ** Wrap-around arithmetic *)

Lemma wrap_range (z : Z) : Int64.min_int <= Int64.wrap z <= Int64.max_int.
Proof.
  unfold Int64.wrap, Int64.min_int, Int64.max_int.
  pose proof (Z.mod_pos_bound (z + 2 ^ 63) (2 ^ 64) ltac:(lia)).
  change (2 ^ 64) with (2 * 2 ^ 63) in *. lia.
Qed.

Lemma wrap_small (z : Z) :
  Int64.min_int <= z <= Int64.max_int -> Int64.wrap z = z.
Proof.
  unfold Int64.wrap, Int64.min_int, Int64.max_int. intros H.
  rewrite Z.mod_small; [lia|].
  change (2 ^ 64) with (2 * 2 ^ 63). lia.
Qed.

Lemma wrap_wrap (z : Z) : Int64.wrap (Int64.wrap z) = Int64.wrap z.
Proof. apply wrap_small, wrap_range. Qed.

Lemma wrap_add_l (a b : Z) : Int64.wrap (Int64.wrap a + b) = Int64.wrap (a + b).
Proof.
  unfold Int64.wrap.
  replace ((a + 2 ^ 63) mod 2 ^ 64 - 2 ^ 63 + b + 2 ^ 63)
    with ((a + 2 ^ 63) mod 2 ^ 64 + b) by lia.
  rewrite Z.add_mod_idemp_l by lia.
  f_equal. f_equal. lia.
Qed.

Lemma wrap_cong_add (a a' b : Z) :
  Int64.wrap a = Int64.wrap a' -> Int64.wrap (a + b) = Int64.wrap (a' + b).
Proof.
  intros H. now rewrite <- wrap_add_l, H, wrap_add_l.
Qed.

(** A conditional [points += x] adds [x] or [0] modulo 2^64 ... *)
Lemma wrap_cond_add (c : bool) (p x : Z) :
  Int64.wrap (if c then Int64.add p x else p)
  = Int64.wrap (p + (if c then x else 0)).
Proof.
  destruct c; unfold Int64.add.
  - apply wrap_wrap.
  - now rewrite Z.add_0_r.
Qed.

(** ... and keeps [points] an [int]. *)
Lemma fixed_cond_add (c : bool) (p x : Z) :
  Int64.wrap p = p ->
  Int64.wrap (if c then Int64.add p x else p) = (if c then Int64.add p x else p).
Proof.
  intros H. destruct c; [apply wrap_wrap | exact H].
Qed.

(** ** The loops of [ReadReceipt] *)

Lemma Ok_pair_inv {A B : Type} (a a' : A) (b b' : B) :
  Ok (a, b) = Ok (a', b') -> a = a' /\ b = b'.
Proof. intros H. split; congruence. Qed.

Section Loops.

Variable ParseFloat : string -> float64.
Variable int_indef : float64 -> Z.

Lemma retailer_loop_spec (chars : list string) (p : Z) :
  Int64.wrap (retailer_loop chars p)
  = Int64.wrap (p + Z.of_nat (List.length (filter (MatchString isalpha) chars)))
  /\ (Int64.wrap p = p ->
      Int64.wrap (retailer_loop chars p) = retailer_loop chars p).
Proof.
  unfold retailer_loop. revert p.
  induction chars as [|ch chars IH]; intros p; cbn [fold_left filter].
  - cbn. rewrite Z.add_0_r. auto.
  - destruct (IH (if MatchString isalpha ch then Int64.add p 1 else p)) as [E F].
    split.
    + rewrite E.
      replace (p + Z.of_nat (List.length
                 (if MatchString isalpha ch
                  then ch :: filter (MatchString isalpha) chars
                  else filter (MatchString isalpha) chars)))
        with (p + (if MatchString isalpha ch then 1 else 0)
              + Z.of_nat (List.length (filter (MatchString isalpha) chars)))
        by (destruct (MatchString isalpha ch); cbn [List.length]; lia).
      apply wrap_cong_add, wrap_cond_add.
    + intros Hp. apply F. now apply fixed_cond_add.
Qed.

Lemma item_body_spec (r : Receipt) (item : Item) (t t' : float64) (p p' : Z) :
  item_body ParseFloat int_indef r item (t, p) = Ok (t', p') ->
  t' = sub t (ParseFloat (Price item))
  /\ Int64.wrap p'
     = Int64.wrap (p + desc_points ParseFloat int_indef item
                   + day_points (PurchaseDate r)
                   + time_points (PurchaseTime r))
  /\ (Int64.wrap p = p -> Int64.wrap p' = p').
Proof.
  unfold item_body, day_points, time_points.
  destruct (slice_from (PurchaseDate r) (len (PurchaseDate r) - 2))
    as [day|] eqn:Hday; cbn [bind]; [|discriminate].
  destruct (slice_to (PurchaseTime r) 2) as [time|] eqn:Htime;
    cbn [bind]; [|discriminate].
  intros H. apply Ok_pair_inv in H. destruct H as [Ht Hp]. subst t' p'.
  split; [reflexivity|]. split.
  - rewrite wrap_cond_add. apply wrap_cong_add.
    rewrite wrap_cond_add. apply wrap_cong_add.
    rewrite wrap_cond_add. reflexivity.
  - intros Hfix. now repeat apply fixed_cond_add.
Qed.

Lemma item_loop_spec (r : Receipt) (items : list Item) :
  forall (t t' : float64) (p p' : Z),
  item_loop ParseFloat int_indef r items (t, p) = Ok (t', p') ->
  t' = fold_left (fun total item => sub total (ParseFloat (Price item))) items t
  /\ Int64.wrap p'
     = Int64.wrap (p + desc_sum ParseFloat int_indef items
                   + Z.of_nat (List.length items) * day_points (PurchaseDate r)
                   + Z.of_nat (List.length items) * time_points (PurchaseTime r))
  /\ (Int64.wrap p = p -> Int64.wrap p' = p').
Proof.
  induction items as [|item rest IH]; intros t t' p p' H.
  - cbn [item_loop] in H. apply Ok_pair_inv in H. destruct H as [-> ->].
    cbn [fold_left desc_sum fold_right List.length Z.of_nat].
    rewrite !Z.mul_0_l, !Z.add_0_r. auto.
  - cbn [item_loop] in H.
    destruct (item_body ParseFloat int_indef r item (t, p))
      as [[t1 p1]|] eqn:Hb; cbn [bind] in H; [|discriminate].
    apply item_body_spec in Hb. destruct Hb as (Ht1 & Hp1 & Hf1).
    apply IH in H. destruct H as (Ht' & Hp' & Hf').
    subst t1. split; [exact Ht'|]. split.
    + rewrite Hp'. unfold desc_sum. cbn [fold_right List.length].
      fold (desc_sum ParseFloat int_indef rest).
      rewrite Nat2Z.inj_succ.
      set (X := desc_sum ParseFloat int_indef rest
                + Z.of_nat (List.length rest) * day_points (PurchaseDate r)
                + Z.of_nat (List.length rest) * time_points (PurchaseTime r)).
      transitivity (Int64.wrap (p1 + X)); [f_equal; subst X; lia|].
      transitivity (Int64.wrap (p + desc_points ParseFloat int_indef item
                                + day_points (PurchaseDate r)
                                + time_points (PurchaseTime r) + X));
        [|f_equal; subst X; lia].
      apply wrap_cong_add, Hp1.
    + auto.
Qed.

(** The loop over the items panics on its first iteration when the date
    or the time is shorter than two bytes. *)
Lemma item_loop_panics (r : Receipt) (item : Item) (rest : list Item)
  (st : float64 * Z) :
  len (PurchaseDate r) < 2 \/ len (PurchaseTime r) < 2 ->
  exists lo hi n,
    item_loop ParseFloat int_indef r (item :: rest) st
    = Panic (slice_bounds_out_of_range lo hi n).
Proof.
  intros H. destruct st as [t p].
  cbn [item_loop]. unfold item_body.
  unfold slice_from at 1.
  destruct (0 <=? len (PurchaseDate r) - 2) eqn:Hd; cbn [andb].
  - assert (Hle : (len (PurchaseDate r) - 2 <=? len (PurchaseDate r)) = true)
      by (apply Z.leb_le; lia).
    rewrite Hle. cbn [bind]. unfold slice_to.
    assert (Ht : (2 <=? len (PurchaseTime r)) = false).
    { apply Z.leb_gt. apply Z.leb_le in Hd. lia. }
    rewrite Ht. cbn [andb Z.leb Z.compare bind]. eauto.
  - cbn [bind]. eauto.
Qed.

(** What the [else] block computes when it completes: the points are the
    wrapped sum of the contributions, and its own [err] is nil exactly
    when the three checks of the block pass. *)
Lemma else_block_spec (r r' : Receipt) (e : option error) :
  else_block ParseFloat int_indef r = Ok (r', e) ->
  r' = set_Points r (Int64.wrap (score ParseFloat int_indef r))
  /\ (e = None <->
      MatchString isdate (PurchaseDate r) = true
      /\ MatchString istime (PurchaseTime r) = true
      /\ neqb (remainder ParseFloat r) zero = false).
Proof.
  unfold else_block. cbv zeta.
  set (b := if eqb (Mod (ParseFloat (Total r)) quarter) zero then _ else _).
  set (p0 := Int64.add (retailer_loop _ b) _).
  destruct (item_loop ParseFloat int_indef r (Items r) (_, p0))
    as [[t p]|] eqn:Hloop; cbn [bind]; [|discriminate].
  apply item_loop_spec in Hloop. destruct Hloop as (Ht & Hp & Hfix).
  change (fold_left _ (Items r) _) with (remainder ParseFloat r) in Ht.
  rewrite <- Ht. clear Ht.
  assert (Hpts : p = Int64.wrap (score ParseFloat int_indef r)).
  { rewrite <- Hfix by apply wrap_wrap.
    rewrite Hp. clear Hp Hfix.
    set (Y := desc_sum ParseFloat int_indef (Items r)
              + Z.of_nat (List.length (Items r)) * day_points (PurchaseDate r)
              + Z.of_nat (List.length (Items r)) * time_points (PurchaseTime r)).
    transitivity (Int64.wrap (p0 + Y)); [f_equal; subst Y; lia|].
    subst p0. unfold Int64.add at 1. rewrite wrap_add_l.
    set (Q := Z.quot (Z.of_nat (List.length (Items r))) 2).
    transitivity (Int64.wrap (round_dollar_points (ParseFloat (Total r))
                              + quarter_points (ParseFloat (Total r))
                              + retailer_points (Retailer r) + Q + Y)).
    - do 2 apply wrap_cong_add.
      destruct (retailer_loop_spec (Utf8.Split (Retailer r)) b) as [E _].
      rewrite E. apply wrap_cong_add.
      subst b. rewrite wrap_cond_add. apply wrap_cong_add.
      rewrite wrap_cond_add. reflexivity.
    - f_equal. unfold score, score_without_day, pair_points, item_count.
      subst Y Q. lia. }
  subst p. generalize (Int64.wrap (score ParseFloat int_indef r)). intros P.
  destruct (MatchString isdate (PurchaseDate r)),
           (MatchString istime (PurchaseTime r)),
           (neqb t zero); cbn; intros H; apply Ok_pair_inv in H;
    destruct H as [<- <-]; (split; [reflexivity|]);
    split; intros H; try discriminate; try tauto;
    destruct H as (? & ? & ?); discriminate.
Qed.

(** After a successful decode, the error [ReadReceipt] returns is nil
    whatever the block found: line 134 returns the function's [err]. *)
Lemma ReadReceipt_returns_nil (r r' : Receipt) (e : option error) :
  ReadReceipt ParseFloat int_indef r None = Ok (r', e) -> e = None.
Proof.
  unfold ReadReceipt.
  destruct (else_block ParseFloat int_indef r) as [[r1 e1]|]; cbn [bind fst].
  - intros H. apply Ok_pair_inv in H. now destruct H.
  - discriminate.
Qed.

Lemma ReadReceipt_points (r r' : Receipt) (e : option error) :
  ReadReceipt ParseFloat int_indef r None = Ok (r', e) ->
  r' = set_Points r (Int64.wrap (score ParseFloat int_indef r)).
Proof.
  unfold ReadReceipt.
  destruct (else_block ParseFloat int_indef r) as [[r1 e1]|] eqn:Hb;
    cbn [bind fst]; [|discriminate].
  intros H. apply Ok_pair_inv in H. destruct H as [<- _].
  now apply else_block_spec in Hb.
Qed.

(** [ReadReceipt] returns whenever the loop over the items does not
    panic: no items, or two bytes at least in the date and in the time. *)
Lemma ReadReceipt_returns (r : Receipt) :
  Items r = [] \/ (2 <= len (PurchaseDate r) /\ 2 <= len (PurchaseTime r)) ->
  ReadReceipt ParseFloat int_indef r None
  = Ok (set_Points r (Int64.wrap (score ParseFloat int_indef r)), None).
Proof.
  intros H.
  assert (Hloop : forall items st,
            items = [] \/ (2 <= len (PurchaseDate r) /\ 2 <= len (PurchaseTime r)) ->
            exists st', item_loop ParseFloat int_indef r items st = Ok st').
  { induction items as [|item rest IH]; intros st Hc.
    - cbn. eauto.
    - destruct Hc as [Hc|[Hd Ht]]; [discriminate|].
      cbn [item_loop]. destruct st as [t p]. unfold item_body.
      unfold slice_from, slice_to.
      replace (0 <=? len (PurchaseDate r) - 2) with true
        by (symmetry; apply Z.leb_le; lia).
      replace (len (PurchaseDate r) - 2 <=? len (PurchaseDate r)) with true
        by (symmetry; apply Z.leb_le; lia).
      replace (2 <=? len (PurchaseTime r)) with true
        by (symmetry; apply Z.leb_le; lia).
      cbn [andb Z.leb Z.compare bind]. apply IH. auto. }
  destruct (ReadReceipt ParseFloat int_indef r None) as [[r' e]|p] eqn:HR.
  - pose proof (ReadReceipt_returns_nil _ _ _ HR) as ->.
    now rewrite (ReadReceipt_points _ _ _ HR).
  - exfalso. unfold ReadReceipt, else_block in HR. cbv zeta in HR.
    match type of HR with
    | context [item_loop ParseFloat int_indef r (Items r) ?st] =>
        destruct (Hloop (Items r) st H) as [[t' p'] Hl]; rewrite Hl in HR
    end.
    cbn [bind] in HR.
    destruct (MatchString isdate (PurchaseDate r)),
             (MatchString istime (PurchaseTime r)),
             (neqb t' zero); cbn in HR; discriminate.
Qed.

End Loops.

(** ** The format checks only look at a prefix *)

Lemma take_class_app (cl : cclass) (n : nat) :
  forall s s' t,
  take_class cl n s = Some s' -> take_class cl n (s ++ t) = Some (s' ++ t).
Proof.
  induction n as [|n IH]; intros s s' t H; cbn [take_class] in *.
  - congruence.
  - destruct s as [|x s1]; [discriminate|]. cbn [append].
    destruct (in_class x cl); [|discriminate]. now apply IH.
Qed.

(** A pattern without [$] that matches [s] matches every extension of [s]. *)
Lemma match_here_app (ats : list atom) :
  forall s t,
  match_here ats false s = true -> match_here ats false (s ++ t) = true.
Proof.
  induction ats as [|a rest IH]; intros s t H.
  - reflexivity.
  - destruct a as [c|cl|cl n|cl]; cbn [match_here] in *.
    + destruct s as [|x s1]; [discriminate|]. cbn [append].
      apply andb_true_iff in H. destruct H as [Hx Hr].
      rewrite Hx. cbn [andb]. now apply IH.
    + destruct s as [|x s1]; [discriminate|]. cbn [append].
      apply andb_true_iff in H. destruct H as [Hx Hr].
      rewrite Hx. cbn [andb]. now apply IH.
    + destruct (take_class cl n s) as [s'|] eqn:Hk; [|discriminate].
      rewrite (take_class_app _ _ _ _ t Hk). now apply IH.
    + revert H. induction s as [|x s1 IHs]; intros H.
      * apply orb_true_iff in H. destruct H as [H|H]; [|discriminate].
        apply (IH _ t) in H. cbn [append] in *.
        destruct t; rewrite H; reflexivity.
      * apply orb_true_iff in H. cbn [append].
        apply orb_true_iff. destruct H as [H|H].
        -- left. apply (IH _ t) in H. exact H.
        -- right. apply andb_true_iff in H. destruct H as [Hx Hs].
           rewrite Hx. cbn [andb]. now apply IHs.
Qed.

Lemma substring_prefix (n : nat) :
  forall s, exists t, s = substring 0 n s ++ t.
Proof.
  induction n as [|n IH]; intros s.
  - exists s. now destruct s.
  - destruct s as [|c s1].
    + now exists "".
    + destruct (IH s1) as [t Ht]. exists t. cbn [substring append]. now f_equal.
Qed.

(** ** Rounding in binary64

    Facts about [binary_round], [SFadd] and [SFsub] of the standard
    library's [SpecFloat], on values counted in units of [2^-1074]. *)

(** [digits2_pos p] is the number of binary digits of [p]. *)
Lemma digits2_bounds (p : positive) :
  2 ^ (Zpos (digits2_pos p) - 1) <= Zpos p < 2 ^ Zpos (digits2_pos p).
Proof.
  induction p as [p IH|p IH|]; cbn [digits2_pos].
  - rewrite Pos2Z.inj_succ.
    replace (Z.succ (Zpos (digits2_pos p)) - 1) with (Z.succ (Zpos (digits2_pos p) - 1)) by lia.
    rewrite !Z.pow_succ_r by lia. lia.
  - rewrite Pos2Z.inj_succ.
    replace (Z.succ (Zpos (digits2_pos p)) - 1) with (Z.succ (Zpos (digits2_pos p) - 1)) by lia.
    rewrite !Z.pow_succ_r by lia. lia.
  - cbn. lia.
Qed.

Lemma digits2_le (p : positive) (d : Z) :
  0 <= d -> Zpos p < 2 ^ d -> Zpos (digits2_pos p) <= d.
Proof.
  intros Hd H. destruct (Z_le_gt_dec (Zpos (digits2_pos p)) d) as [|G]; [assumption|].
  exfalso. pose proof (digits2_bounds p) as [L _].
  assert (2 ^ d <= 2 ^ (Zpos (digits2_pos p) - 1)) by (apply Z.pow_le_mono_r; lia).
  lia.
Qed.

Lemma iter_xO (m d : positive) : Zpos (Pos.iter xO m d) = Zpos m * 2 ^ Zpos d.
Proof.
  induction d as [|d IH] using Pos.peano_ind.
  - cbn. lia.
  - rewrite Pos.iter_succ, Pos2Z.inj_xO, IH, Pos2Z.inj_succ, Z.pow_succ_r by lia. lia.
Qed.

(** Aligning to a smaller exponent shifts the mantissa left. *)
Lemma shl_align_spec (m : positive) (e e' : Z) :
  shl_align m e e' =
  if e' <? e then (Z.to_pos (Zpos m * 2 ^ (e - e')), e') else (m, e).
Proof.
  unfold shl_align. destruct (e' - e) as [|d|d] eqn:Hd.
  - replace (e' <? e) with false by (symmetry; apply Z.ltb_ge; lia). reflexivity.
  - replace (e' <? e) with false by (symmetry; apply Z.ltb_ge; lia). reflexivity.
  - replace (e' <? e) with true by (symmetry; apply Z.ltb_lt; lia).
    f_equal. replace (e - e') with (Zpos d) by lia.
    rewrite <- iter_xO. reflexivity.
Qed.

Lemma shr_1_m (mrs : shr_record) :
  0 <= shr_m mrs -> shr_m (shr_1 mrs) = shr_m mrs / 2.
Proof.
  destruct mrs as [m r s]. cbn [shr_m]. intros H.
  destruct m as [|[p|p|]|p]; cbn [shr_1 shr_m]; try lia;
    try reflexivity.
  - apply Z.div_unique with (r := 1); lia.
  - apply Z.div_unique with (r := 0); lia.
Qed.

(** [n] right shifts divide the mantissa by [2^n]. *)
Lemma iter_shr_1_m (n : positive) :
  forall mrs, 0 <= shr_m mrs ->
  shr_m (iter_pos shr_1 n mrs) = shr_m mrs / 2 ^ Zpos n.
Proof.
  induction n as [n IH|n IH|]; intros mrs H; cbn [iter_pos].
  - assert (H1 : 0 <= shr_m (shr_1 mrs)) by (rewrite shr_1_m by lia; apply Z.div_pos; lia).
    assert (H2 : 0 <= shr_m (iter_pos shr_1 n (shr_1 mrs)))
      by (rewrite IH by lia; apply Z.div_pos; [lia|apply Z.pow_pos_nonneg; lia]).
    rewrite IH, IH, shr_1_m by assumption.
    rewrite !Z.div_div by (try apply Z.pow_pos_nonneg; lia).
    f_equal.
    replace (Zpos n~1) with (1 + Zpos n + Zpos n) by lia.
    rewrite !Z.pow_add_r by lia. lia.
  - assert (H2 : 0 <= shr_m (iter_pos shr_1 n mrs))
      by (rewrite IH by lia; apply Z.div_pos; [lia|apply Z.pow_pos_nonneg; lia]).
    rewrite IH, IH by assumption.
    rewrite !Z.div_div by (try apply Z.pow_pos_nonneg; lia).
    f_equal.
    replace (Zpos n~0) with (Zpos n + Zpos n) by lia.
    rewrite !Z.pow_add_r by lia. lia.
  - now apply shr_1_m.
Qed.

Lemma digits2_unique (p : positive) (d : Z) :
  2 ^ (d - 1) <= Zpos p < 2 ^ d -> Zpos (digits2_pos p) = d.
Proof.
  intros [L U]. pose proof (digits2_bounds p) as [L' U'].
  assert (0 < d).
  { destruct (Z_lt_le_dec 0 d); [assumption|]. exfalso.
    destruct (Z.eq_dec d 0) as [->|]; [cbn in U; lia|].
    rewrite Z.pow_neg_r in U by lia. lia. }
  destruct (Z_lt_le_dec (Zpos (digits2_pos p)) d).
  - assert (2 ^ Zpos (digits2_pos p) <= 2 ^ (d - 1)) by (apply Z.pow_le_mono_r; lia). lia.
  - destruct (Z_lt_le_dec d (Zpos (digits2_pos p))); [|lia].
    assert (2 ^ d <= 2 ^ (Zpos (digits2_pos p) - 1)) by (apply Z.pow_le_mono_r; lia). lia.
Qed.

Lemma shr_spec (mrs : shr_record) (e n : Z) :
  0 <= shr_m mrs ->
  shr_m (fst (shr mrs e n)) = shr_m mrs / 2 ^ Z.max n 0
  /\ snd (shr mrs e n) = e + Z.max n 0.
Proof.
  intros H. unfold shr. destruct n as [|p|p]; cbn [fst snd].
  - cbn. rewrite Z.div_1_r. lia.
  - rewrite iter_shr_1_m by assumption. rewrite Z.max_l by lia. auto.
  - rewrite Z.max_r by lia. cbn [Z.pow]. rewrite Z.div_1_r. lia.
Qed.

Lemma shr_record_of_loc_m (m : Z) (l : location) : shr_m (shr_record_of_loc m l) = m.
Proof. destruct l as [|[]]; reflexivity. Qed.

Lemma round_nearest_even_bounds (m : Z) (l : location) :
  m <= round_nearest_even m l <= m + 1.
Proof.
  unfold round_nearest_even. destruct l as [|[]]; try lia.
  destruct (Z.even m); lia.
Qed.

(** Upper bound on what rounding returns. *)
Lemma binary_round_aux_bound (k : positive) (e : Z) :
  -1074 <= e ->
  exists m3 e3,
    0 <= m3 /\ -1074 <= e3
    /\ scaled m3 e3 <= 2 * scaled (Zpos k) e + 1
    /\ binary_round_aux prec emax false (Zpos k) e loc_Exact
       = match m3 with
         | 0 => S754_zero false
         | Zpos m => if e3 <=? emax - prec then S754_finite false m e3
                     else S754_infinity false
         | Zneg _ => S754_nan
         end.
Proof.
  intros He. unfold binary_round_aux, shr_fexp.
  set (n1 := fexp prec emax (Zdigits2 (Zpos k) + e) - e).
  pose proof (shr_spec (shr_record_of_loc (Zpos k) loc_Exact) e n1 ltac:(cbn; lia)) as [Hm1 He1].
  destruct (shr (shr_record_of_loc (Zpos k) loc_Exact) e n1) as [mrs1 e1].
  cbn [fst snd] in Hm1, He1. cbn [shr_record_of_loc shr_m] in Hm1.
  set (m2 := round_nearest_even (shr_m mrs1) (loc_of_shr_record mrs1)).
  pose proof (round_nearest_even_bounds (shr_m mrs1) (loc_of_shr_record mrs1)) as Hm2.
  fold m2 in Hm2.
  assert (Hp1 : 0 < 2 ^ Z.max n1 0) by (apply Z.pow_pos_nonneg; lia).
  assert (Hm1pos : 0 <= shr_m mrs1) by (rewrite Hm1; apply Z.div_pos; lia).
  set (n2 := fexp prec emax (Zdigits2 m2 + e1) - e1).
  pose proof (shr_spec (shr_record_of_loc m2 loc_Exact) e1 n2
                ltac:(rewrite shr_record_of_loc_m; lia)) as [Hm3 He3].
  destruct (shr (shr_record_of_loc m2 loc_Exact) e1 n2) as [mrs3 e3].
  cbn [fst snd] in Hm3, He3. rewrite shr_record_of_loc_m in Hm3.
  assert (Hp2 : 0 < 2 ^ Z.max n2 0) by (apply Z.pow_pos_nonneg; lia).
  exists (shr_m mrs3), e3.
  assert (Hm3pos : 0 <= shr_m mrs3) by (rewrite Hm3; apply Z.div_pos; lia).
  split; [assumption|]. split; [lia|]. split.
  - unfold scaled.
    (* m3 * 2^(e3+S) <= m2 * 2^(e1+S) *)
    assert (A : shr_m mrs3 * 2 ^ (e3 + 1074) <= m2 * 2 ^ (e1 + 1074)).
    { rewrite He3. replace (e1 + Z.max n2 0 + 1074) with (Z.max n2 0 + (e1 + 1074)) by lia.
      rewrite Z.pow_add_r by lia. rewrite Z.mul_assoc.
      apply Z.mul_le_mono_nonneg_r; [apply Z.pow_nonneg; lia|].
      rewrite Hm3. rewrite Z.mul_comm. apply Z.mul_div_le. lia. }
    assert (B : shr_m mrs1 * 2 ^ (e1 + 1074) <= Zpos k * 2 ^ (e + 1074)).
    { rewrite He1. replace (e + Z.max n1 0 + 1074) with (Z.max n1 0 + (e + 1074)) by lia.
      rewrite Z.pow_add_r by lia. rewrite Z.mul_assoc.
      apply Z.mul_le_mono_nonneg_r; [apply Z.pow_nonneg; lia|].
      rewrite Hm1. rewrite Z.mul_comm. apply Z.mul_div_le. lia. }
    assert (C : 2 ^ (e1 + 1074) <= Zpos k * 2 ^ (e + 1074) + 1).
    { assert (P0 : 0 < 2 ^ (e + 1074)) by (apply Z.pow_pos_nonneg; lia).
      destruct (Z.max_spec n1 0) as [[Hlt Hmax]|[Hle Hmax]]; rewrite Hmax in He1.
      - replace e1 with e by lia. nia.
      - subst n1. unfold fexp in He1, Hle. cbn [Zdigits2] in He1, Hle.
        change (emin prec emax) with (-1074) in He1, Hle. unfold prec in He1, Hle.
        destruct (Z.max_spec (Zpos (digits2_pos k) + e - 53) (-1074)) as [[G1 G2]|[G1 G2]];
          rewrite G2 in He1, Hle.
        + replace (e1 + 1074) with 0 by lia. change (2 ^ 0) with 1. nia.
        + replace (e1 + 1074) with ((Zpos (digits2_pos k) - 53) + (e + 1074)) by lia.
          rewrite Z.pow_add_r by lia.
          pose proof (digits2_bounds k) as [L _].
          assert (2 ^ (Zpos (digits2_pos k) - 53) <= 2 ^ (Zpos (digits2_pos k) - 1))
            by (apply Z.pow_le_mono_r; lia).
          nia. }
    assert (P1 : 0 < 2 ^ (e1 + 1074)) by (apply Z.pow_pos_nonneg; lia).
    nia.
  - unfold prec, emax. destruct (shr_m mrs3); reflexivity.
Qed.

Lemma binary_round_aux_exact (k : positive) (e : Z) :
  fexp prec emax (Zpos (digits2_pos k) + e) = e ->
  e <= emax - prec ->
  binary_round_aux prec emax false (Zpos k) e loc_Exact = S754_finite false k e.
Proof.
  intros Hc Hb. unfold binary_round_aux, shr_fexp. cbn [Zdigits2].
  rewrite Hc, Z.sub_diag. cbn [shr shr_record_of_loc shr_m loc_of_shr_record round_nearest_even Zdigits2].
  rewrite Hc, Z.sub_diag. cbn [shr shr_record_of_loc shr_m].
  apply Z.leb_le in Hb. now rewrite Hb.
Qed.

Lemma scaled_pos (k : positive) (e : Z) : -1074 <= e -> 0 < scaled (Zpos k) e.
Proof.
  intros H. unfold scaled.
  assert (0 < 2 ^ (e + 1074)) by (apply Z.pow_pos_nonneg; lia). nia.
Qed.

Lemma shl_align_scaled (m : positive) (e ez : Z) :
  ez <= e -> -1074 <= ez ->
  scaled (Zpos (fst (shl_align m e ez))) ez = scaled (Zpos m) e.
Proof.
  intros Hle Hz. rewrite shl_align_spec.
  destruct (ez <? e) eqn:Hlt; cbn [fst].
  - apply Z.ltb_lt in Hlt. unfold scaled.
    assert (0 < 2 ^ (e - ez)) by (apply Z.pow_pos_nonneg; lia).
    rewrite Z2Pos.id by nia.
    rewrite <- Z.mul_assoc, <- Z.pow_add_r by lia.
    do 2 f_equal. lia.
  - apply Z.ltb_ge in Hlt. replace ez with e by lia. reflexivity.
Qed.

Lemma fexp_ge (x : Z) : -1074 <= fexp prec emax x.
Proof. unfold fexp. change (emin prec emax) with (-1074). lia. Qed.

Lemma binary_round_bound (k : positive) (e : Z) :
  -1074 <= e ->
  exists m3 e3,
    0 <= m3 /\ -1074 <= e3
    /\ scaled m3 e3 <= 2 * scaled (Zpos k) e + 1
    /\ binary_round prec emax false k e
       = match m3 with
         | 0 => S754_zero false
         | Zpos m => if e3 <=? emax - prec then S754_finite false m e3
                     else S754_infinity false
         | Zneg _ => S754_nan
         end.
Proof.
  intros He. unfold binary_round.
  set (t := fexp prec emax (Zpos (digits2_pos k) + e)).
  pose proof (fexp_ge (Zpos (digits2_pos k) + e)) as Ht. fold t in Ht.
  destruct (shl_align k e t) as [mz ez] eqn:Hs.
  assert (Hez : -1074 <= ez /\ scaled (Zpos mz) ez = scaled (Zpos k) e).
  { rewrite shl_align_spec in Hs. destruct (t <? e) eqn:Hlt.
    - apply Z.ltb_lt in Hlt. injection Hs as <- <-. split; [lia|].
      pose proof (shl_align_scaled k e t ltac:(lia) Ht) as E.
      rewrite shl_align_spec in E.
      replace (t <? e) with true in E by (symmetry; apply Z.ltb_lt; lia).
      exact E.
    - injection Hs as <- <-. auto. }
  destruct Hez as [Hez Hv]. rewrite <- Hv.
  now apply binary_round_aux_bound.
Qed.

(** Rounding a small enough positive value neither overflows nor changes
    sign, and at most doubles it. *)
Lemma binary_round_small (k : positive) (e b : Z) :
  -1074 <= e -> b <= emax - prec + 1 ->
  2 * scaled (Zpos k) e + 1 < 2 ^ (b + 1074) ->
  binary_round prec emax false k e = S754_zero false
  \/ exists m3 e3,
       binary_round prec emax false k e = S754_finite false m3 e3
       /\ -1074 <= e3
       /\ scaled (Zpos m3) e3 <= 2 * scaled (Zpos k) e + 1.
Proof.
  intros He Hb Hsmall.
  destruct (binary_round_bound k e He) as (m3 & e3 & Hm3 & He3 & Hv & ->).
  destruct m3 as [|m|m]; [now left| |lia].
  right. exists m, e3.
  assert (He3b : e3 + 1074 < b + 1074).
  { apply (Z.pow_lt_mono_r_iff 2 (e3 + 1074) (b + 1074)) ; try lia.
    - pose proof (scaled_pos k e He).
      destruct (Z_lt_le_dec (b + 1074) 0); [|lia].
      rewrite Z.pow_neg_r in Hsmall by lia. lia.
    - unfold scaled in Hv at 1.
      assert (0 < 2 ^ (e3 + 1074)) by (apply Z.pow_pos_nonneg; lia). nia. }
  replace (e3 <=? emax - prec) with true by (symmetry; apply Z.leb_le; lia).
  auto.
Qed.

Lemma digits2_shift (k : positive) (d : Z) :
  0 <= d ->
  Zpos (digits2_pos (Z.to_pos (Zpos k * 2 ^ d))) = Zpos (digits2_pos k) + d.
Proof.
  intros Hd. apply digits2_unique.
  assert (0 < 2 ^ d) by (apply Z.pow_pos_nonneg; lia).
  rewrite Z2Pos.id by nia.
  pose proof (digits2_bounds k) as [L U].
  replace (Zpos (digits2_pos k) + d - 1) with ((Zpos (digits2_pos k) - 1) + d) by lia.
  rewrite !Z.pow_add_r by lia. nia.
Qed.

(** Rounding a value that fits the format returns it unchanged. *)
Lemma binary_round_exact (k : positive) (e : Z) :
  Zpos k < 2 ^ prec -> -1074 <= e -> e <= 0 ->
  exists mz ez,
    binary_round prec emax false k e = S754_finite false mz ez
    /\ -1074 <= ez
    /\ scaled (Zpos mz) ez = scaled (Zpos k) e.
Proof.
  intros Hk He He0. unfold binary_round.
  pose proof (digits2_le k prec ltac:(unfold prec; lia) Hk) as Hd.
  set (t := fexp prec emax (Zpos (digits2_pos k) + e)).
  assert (Ht : -1074 <= t <= e).
  { subst t. unfold fexp. change (emin prec emax) with (-1074). lia. }
  rewrite shl_align_spec. destruct (t <? e) eqn:Hlt.
  - apply Z.ltb_lt in Hlt.
    exists (Z.to_pos (Zpos k * 2 ^ (e - t))), t.
    rewrite binary_round_aux_exact.
    + split; [reflexivity|]. split; [lia|].
      pose proof (shl_align_scaled k e t ltac:(lia) ltac:(lia)) as E.
      rewrite shl_align_spec in E.
      replace (t <? e) with true in E by (symmetry; apply Z.ltb_lt; lia).
      exact E.
    + rewrite digits2_shift by lia.
      replace (Zpos (digits2_pos k) + (e - t) + t) with (Zpos (digits2_pos k) + e) by lia.
      reflexivity.
    + unfold emax, prec. lia.
  - apply Z.ltb_ge in Hlt. assert (t = e) by lia.
    exists k, e. rewrite binary_round_aux_exact.
    + auto.
    + fold t. assumption.
    + unfold emax, prec. lia.
Qed.

Lemma scaled_add (a b e : Z) : scaled (a + b) e = scaled a e + scaled b e.
Proof. unfold scaled. lia. Qed.

Lemma scaled_sub (a b e : Z) : scaled (a - b) e = scaled a e - scaled b e.
Proof. unfold scaled. lia. Qed.

(** The sum of two positive floats is a positive float (or zero), at most
    about twice the exact sum. *)
Lemma add_bound (m1 m2 : positive) (e1 e2 b : Z) :
  -1074 <= e1 -> -1074 <= e2 -> b <= emax - prec + 1 ->
  2 * (scaled (Zpos m1) e1 + scaled (Zpos m2) e2) + 1 < 2 ^ (b + 1074) ->
  add (S754_finite false m1 e1) (S754_finite false m2 e2) = S754_zero false
  \/ exists m3 e3,
       add (S754_finite false m1 e1) (S754_finite false m2 e2)
       = S754_finite false m3 e3
       /\ -1074 <= e3
       /\ scaled (Zpos m3) e3
          <= 2 * (scaled (Zpos m1) e1 + scaled (Zpos m2) e2) + 1.
Proof.
  intros H1 H2 Hb Hs. unfold add, SFadd. cbn [cond_Zopp].
  set (ez := Z.min e1 e2).
  pose proof (shl_align_scaled m1 e1 ez ltac:(lia) ltac:(lia)) as A.
  pose proof (shl_align_scaled m2 e2 ez ltac:(lia) ltac:(lia)) as B.
  rewrite <- A, <- B, <- scaled_add in *.
  rewrite <- Pos2Z.inj_add in *. cbn [binary_normalize].
  apply binary_round_small with (b := b); try assumption. lia.
Qed.

(** So is the difference of a positive float and a smaller one. *)
Lemma sub_bound (m1 m2 : positive) (e1 e2 b : Z) :
  -1074 <= e1 -> -1074 <= e2 -> b <= emax - prec + 1 ->
  scaled (Zpos m2) e2 < scaled (Zpos m1) e1 ->
  2 * (scaled (Zpos m1) e1 - scaled (Zpos m2) e2) + 1 < 2 ^ (b + 1074) ->
  sub (S754_finite false m1 e1) (S754_finite false m2 e2) = S754_zero false
  \/ exists m3 e3,
       sub (S754_finite false m1 e1) (S754_finite false m2 e2)
       = S754_finite false m3 e3
       /\ -1074 <= e3
       /\ scaled (Zpos m3) e3
          <= 2 * (scaled (Zpos m1) e1 - scaled (Zpos m2) e2) + 1.
Proof.
  intros H1 H2 Hb Hlt Hs. unfold sub, SFsub. cbn [cond_Zopp].
  set (ez := Z.min e1 e2).
  pose proof (shl_align_scaled m1 e1 ez ltac:(lia) ltac:(lia)) as A.
  pose proof (shl_align_scaled m2 e2 ez ltac:(lia) ltac:(lia)) as B.
  rewrite <- A, <- B, <- scaled_sub in *.
  destruct (Zpos (fst (shl_align m1 e1 ez)) - Zpos (fst (shl_align m2 e2 ez)))
    as [|d|d] eqn:Hd.
  - exfalso. unfold scaled in Hlt. lia.
  - cbn [binary_normalize].
    apply binary_round_small with (b := b); try assumption. lia.
  - exfalso. unfold scaled in Hlt.
    assert (0 < 2 ^ (ez + 1074)) by (apply Z.pow_pos_nonneg; lia). nia.
Qed.

Lemma bounded_facts (m : positive) (e : Z) :
  bounded prec emax m e = true ->
  -1074 <= e /\ Zpos m < 2 ^ prec.
Proof.
  unfold bounded, canonical_mantissa. intros H.
  apply andb_true_iff in H. destruct H as [Hc _]. apply Z.eqb_eq in Hc.
  pose proof (fexp_ge (Zpos (digits2_pos m) + e)) as G. rewrite Hc in G.
  split; [assumption|].
  unfold fexp in Hc. change (emin prec emax) with (-1074) in Hc.
  pose proof (digits2_bounds m) as [_ U].
  assert (2 ^ Zpos (digits2_pos m) <= 2 ^ prec)
    by (apply Z.pow_le_mono_r; unfold prec in *; lia).
  lia.
Qed.

Lemma scaled_one : scaled 4503599627370496 (-52) = 2 ^ 1074.
Proof.
  unfold scaled. change 4503599627370496 with (2 ^ 52).
  rewrite <- Z.pow_add_r by lia. reflexivity.
Qed.

(** [math.Mod(p, 1)] of a positive float is [+0] or a positive float
    below 1. *)
Lemma Mod_one_bound (m : positive) (e : Z) :
  bounded prec emax m e = true ->
  Mod (S754_finite false m e) one = S754_zero false
  \/ exists mf ef,
       Mod (S754_finite false m e) one = S754_finite false mf ef
       /\ -1074 <= ef
       /\ scaled (Zpos mf) ef < 2 ^ 1074.
Proof.
  intros Hb. apply bounded_facts in Hb. destruct Hb as [He Hm].
  unfold Mod, one.
  set (ez := Z.min e (-52)).
  set (X := Z.shiftl (Zpos m) (e - ez)).
  set (Y := Z.shiftl 4503599627370496 (-52 - ez)).
  assert (HX : X = Zpos m * 2 ^ (e - ez))
    by (subst X; apply Z.shiftl_mul_pow2; lia).
  assert (HY : Y = 2 ^ 52 * 2 ^ (-52 - ez))
    by (subst Y; apply Z.shiftl_mul_pow2; lia).
  assert (Yp : 0 < 2 ^ (-52 - ez)) by (apply Z.pow_pos_nonneg; lia).
  assert (Xp : 0 < 2 ^ (e - ez)) by (apply Z.pow_pos_nonneg; lia).
  assert (HR : Z.rem X Y = X mod Y) by (apply Z.rem_mod_nonneg; nia).
  rewrite HR.
  pose proof (Z.mod_pos_bound X Y ltac:(nia)) as [R0 RY].
  pose proof (Z.mod_le X Y ltac:(nia) ltac:(nia)) as RX.
  destruct (X mod Y =? 0) eqn:Hz; [now left|right].
  apply Z.eqb_neq in Hz.
  destruct (X mod Y) as [|R|R] eqn:HRR; [lia| |lia].
  cbn [cond_Zopp binary_normalize].
  destruct (binary_round_exact R ez) as (mf & ef & E & Hef & Hv).
  - destruct (Z_le_gt_dec e (-52)).
    + replace (e - ez) with 0 in HX by lia. change (2 ^ 0) with 1 in HX. lia.
    + replace (-52 - ez) with 0 in HY by lia. change (2 ^ 0) with 1 in HY.
      unfold prec. change (2 ^ 53) with (2 * 2 ^ 52). lia.
  - lia.
  - lia.
  - exists mf, ef. split; [assumption|]. split; [assumption|].
    rewrite Hv. unfold scaled.
    assert (P : 0 < 2 ^ (ez + 1074)) by (apply Z.pow_pos_nonneg; lia).
    assert (E1 : Y * 2 ^ (ez + 1074) = 2 ^ 1074).
    { rewrite HY, <- !Z.pow_add_r by lia. f_equal. lia. }
    rewrite <- E1. nia.
Qed.

(** Truncation is the quotient of the scaled value by [2^1074]. *)
Lemma shiftl_scaled (m e : Z) :
  0 <= m -> -1074 <= e -> Z.shiftl m e = scaled m e / 2 ^ 1074.
Proof.
  intros Hm He. unfold scaled.
  destruct (Z_le_gt_dec 0 e).
  - rewrite Z.shiftl_mul_pow2 by lia.
    rewrite Z.pow_add_r, Z.mul_assoc by lia.
    rewrite Z.div_mul; [reflexivity|]. apply Z.pow_nonzero; lia.
  - rewrite Z.shiftl_div_pow2 by lia.
    replace (2 ^ 1074) with (2 ^ (e + 1074) * 2 ^ (- e))
      by (rewrite <- Z.pow_add_r by lia; f_equal; lia).
    rewrite (Z.mul_comm m), Z.div_mul_cancel_l; [reflexivity| |];
      apply Z.pow_nonzero; lia.
Qed.

(** Bounds on what line 101-102 add for a small non-negative price. *)
Lemma rounded_price_bounds (indef : float64 -> Z) (p : float64) :
  small_price p = true ->
  0 <= rounded_price indef p <= 2 ^ 31 + 4.
Proof.
  unfold small_price. intros H. apply andb_true_iff in H. destruct H as [Hv Hs].
  destruct p as [s|s| |[|] m e]; try discriminate.
  - destruct s; vm_compute; split; discriminate.
  - cbn [valid_binary] in Hv. apply Z.ltb_lt in Hs.
    pose proof (bounded_facts m e Hv) as [He Hm].
    unfold rounded_price.
    pose proof scaled_one as H1.
    pose proof (shiftl_scaled (Zpos m) e ltac:(lia) He) as Hp.
    assert (U0 : 0 < 2 ^ 1074) by (apply Z.pow_pos_nonneg; lia).
    assert (U4 : 2 ^ (2 + 1074) = 4 * 2 ^ 1074)
      by (rewrite Z.pow_add_r by lia; reflexivity).
    assert (U32 : 2 ^ (32 + 1074) = 2 ^ 32 * 2 ^ 1074)
      by (rewrite Z.pow_add_r by lia; reflexivity).
    assert (Vp : scaled (Zpos m) e < 2 ^ 30 * 2 ^ 1074).
    { rewrite Hp in Hs.
      pose proof (Z.mul_succ_div_gt (scaled (Zpos m) e) (2 ^ 1074) U0). nia. }
    pose proof (scaled_pos m e He) as Vp0.
    (* r = 1 - Mod(p, 1) *)
    assert (Hr : sub one (Mod (S754_finite false m e) one) = S754_zero false
                 \/ exists mr er,
                      sub one (Mod (S754_finite false m e) one)
                      = S754_finite false mr er
                      /\ -1074 <= er
                      /\ scaled (Zpos mr) er <= 2 * 2 ^ 1074 + 1).
    { destruct (Mod_one_bound m e Hv) as [->|(mf & ef & -> & Hef & Hf)].
      - right. exists 4503599627370496%positive, (-52).
        split; [reflexivity|]. split; [lia|]. rewrite H1. lia.
      - pose proof (scaled_pos mf ef Hef) as Vf0.
        unfold one.
        destruct (sub_bound 4503599627370496 mf (-52) ef 2)
          as [E|(mr & er & E & Her & Hvr)];
          try rewrite H1; try rewrite U4; try (unfold emax, prec; lia).
        + now left.
        + right. exists mr, er. rewrite H1 in Hvr. repeat split; try assumption. lia. }
    destruct Hr as [->|(mr & er & -> & Her & Hvr)].
    + (* p + 0 *)
      cbn [add SFadd to_int]. unfold trunc. cbn [cond_Zopp].
      assert (0 <= Z.shiftl (Zpos m) e) by (apply Z.shiftl_nonneg; lia).
      replace (Int64.in_range (Z.shiftl (Zpos m) e)) with true.
      * lia.
      * symmetry. unfold Int64.in_range, Int64.min_int, Int64.max_int.
        apply andb_true_iff. split; apply Z.leb_le; lia.
    + pose proof (scaled_pos mr er Her) as Vr0.
      destruct (add_bound m mr e er 32) as [->|(mq & eq & -> & Heq & Hvq)];
        try rewrite U32; try (unfold emax, prec; lia).
      * cbn. lia.
      * cbn [to_int]. unfold trunc. cbn [cond_Zopp].
        pose proof (shiftl_scaled (Zpos mq) eq ltac:(lia) Heq) as Hq.
        pose proof (scaled_pos mq eq Heq) as Vq0.
        assert (Hlo : 0 <= Z.shiftl (Zpos mq) eq) by (apply Z.shiftl_nonneg; lia).
        assert (Hhi : Z.shiftl (Zpos mq) eq <= 2 ^ 31 + 4).
        { rewrite Hq.
          apply Z.lt_succ_r. apply Z.div_lt_upper_bound; [assumption|].
          nia. }
        replace (Int64.in_range (Z.shiftl (Zpos mq) eq)) with true.
        -- lia.
        -- symmetry. unfold Int64.in_range, Int64.min_int, Int64.max_int.
           apply andb_true_iff. split; apply Z.leb_le; lia.
Qed.

(** ** Bounds on the contributions *)

Lemma explode_length (fuel : nat) :
  forall s, (List.length (Utf8.explode fuel s) <= fuel)%nat.
Proof.
  induction fuel as [|fuel IH]; intros s; cbn [Utf8.explode].
  - cbn. lia.
  - destruct s as [|c s1]; [cbn; lia|].
    cbn [List.length]. apply le_n_S, IH.
Qed.

Lemma filter_length {A : Type} (f : A -> bool) (l : list A) :
  (List.length (filter f l) <= List.length l)%nat.
Proof.
  induction l as [|x l IH]; cbn [filter List.length]; [lia|].
  destruct (f x); cbn [List.length]; lia.
Qed.

Lemma retailer_points_bounds (name : string) :
  0 <= retailer_points name <= len name.
Proof.
  unfold retailer_points, len, Utf8.Split.
  pose proof (filter_length (MatchString isalpha)
                (Utf8.explode (String.length name) name)).
  pose proof (explode_length (String.length name) name).
  lia.
Qed.

Lemma day_points_bounds (date : string) : 0 <= day_points date <= 6.
Proof.
  unfold day_points. destruct (slice_from _ _); [|lia].
  destruct (Z.rem _ 2 =? 1); lia.
Qed.

Lemma time_points_bounds (time : string) : 0 <= time_points time <= 10.
Proof.
  unfold time_points. destruct (slice_to _ _); [|lia].
  cbv zeta. destruct (_ && _); lia.
Qed.

Lemma pair_points_bounds (items : list Item) :
  0 <= pair_points items <= Z.of_nat (List.length items).
Proof.
  unfold pair_points.
  pose proof (Zle_0_nat (List.length items)).
  rewrite Z.quot_div_nonneg by lia.
  split; [apply Z.div_pos; lia|].
  apply Z.div_le_upper_bound; lia.
Qed.

Section ScoreBounds.

Variable ParseFloat : string -> float64.
Variable int_indef : float64 -> Z.

Lemma desc_points_bounds (item : Item) :
  small_price (ParseFloat (Price item)) = true ->
  0 <= desc_points ParseFloat int_indef item <= 2 ^ 31 + 4.
Proof.
  intros H. unfold desc_points.
  destruct (Z.rem _ 3 =? 0); [|lia].
  now apply rounded_price_bounds.
Qed.

Lemma desc_sum_bounds (items : list Item) :
  (forall item, In item items -> small_price (ParseFloat (Price item)) = true) ->
  0 <= desc_sum ParseFloat int_indef items
    <= Z.of_nat (List.length items) * (2 ^ 31 + 4).
Proof.
  induction items as [|item rest IH]; intros H.
  - cbn. lia.
  - unfold desc_sum. cbn [fold_right List.length].
    fold (desc_sum ParseFloat int_indef rest).
    pose proof (desc_points_bounds item (H item (or_introl eq_refl))).
    pose proof (IH (fun i Hi => H i (or_intror Hi))).
    rewrite Nat2Z.inj_succ. lia.
Qed.

(** With small prices the exact sum of the contributions is not negative
    and is bounded by the sizes of the receipt. *)
Lemma score_bounds (r : Receipt) :
  (forall item, In item (Items r) -> small_price (ParseFloat (Price item)) = true) ->
  0 <= score ParseFloat int_indef r
    <= 75 + len (Retailer r) + item_count r * (2 ^ 31 + 21).
Proof.
  intros H. unfold score, score_without_day, item_count.
  pose proof (desc_sum_bounds (Items r) H).
  pose proof (retailer_points_bounds (Retailer r)).
  pose proof (pair_points_bounds (Items r)).
  pose proof (day_points_bounds (PurchaseDate r)).
  pose proof (time_points_bounds (PurchaseTime r)).
  pose proof (Zle_0_nat (List.length (Items r))).
  assert (0 <= round_dollar_points (ParseFloat (Total r)) <= 50)
    by (unfold round_dollar_points; destruct (eqb _ _); lia).
  assert (0 <= quarter_points (ParseFloat (Total r)) <= 25)
    by (unfold quarter_points; destruct (eqb _ _); lia).
  nia.
Qed.

End ScoreBounds.

(** ** The claims *)

(** C1 (item-pair bonus): on a receipt with two items [ReadReceipt] awards
    76 points, of which the other rules account for 75: the pair rule of
    lines 87-88 adds [items / 2 = 1], not the 5 points per pair the claim
    (and the comment on line 86) asks for. *)
Theorem pair_bonus_two_items :
  ReadReceipt parseDecimal indef_amd64 two_items None
  = Ok (set_Points two_items 76, None)
  /\ pair_points (Items two_items) = 1
  /\ score parseDecimal indef_amd64 two_items - pair_points (Items two_items) = 75.
Proof. vm_compute. auto. Qed.

(** C2 (description-length rule): for the item ("abc", "12.25") the code
    adds [int(12.25 + (1 - 0.25)) = 13] points; the claim, like the comment
    on lines 95-97, asks for [ceil(12.25 * 0.2) = 3]. *)
Theorem description_rule_fractional_price :
  desc_points parseDecimal indef_amd64 (mkItem "abc" "12.25") = 13
  /\ ReadReceipt parseDecimal indef_amd64 fractional_price None
     = Ok (set_Points fractional_price (25 + 13), None).
Proof. vm_compute. auto. Qed.

(** C3 (retailer presence): a receipt with an empty retailer passes; the
    [else] block has no retailer check, so even its own [err] is nil. *)
Theorem empty_retailer_accepted :
  else_block parseDecimal indef_amd64 no_retailer
  = Ok (set_Points no_retailer 75, None)
  /\ ReadReceipt parseDecimal indef_amd64 no_retailer None
     = Ok (set_Points no_retailer 75, None).
Proof. vm_compute. auto. Qed.

(** C5 (whole-dollar price): for the item ("abc", "10.00") the expression
    of line 101 is [10 + (1 - 0) = 11], so the rule adds 11 points: the
    price does get the "+1", where rounding up leaves 10. *)
Theorem whole_dollar_price_bumped :
  Mod (parseDecimal "10.00") one = zero
  /\ rounded_price indef_amd64 (parseDecimal "10.00") = 11
  /\ ReadReceipt parseDecimal indef_amd64 whole_dollar None
     = Ok (set_Points whole_dollar (75 + 11), None).
Proof. vm_compute. auto. Qed.

(** C6 (total mismatch): total "5" and no items leave the remainder 5; the
    [else] block joins the mismatch error into its own [err], and
    [ReadReceipt] returns a nil error all the same. *)
Theorem total_mismatch_not_reported :
  neqb (remainder parseDecimal mismatch) zero = true
  /\ else_block parseDecimal indef_amd64 mismatch
     = Ok (set_Points mismatch 76,
           Some (Joined [New ""; New "total Price does not match item prices "]))
  /\ ReadReceipt parseDecimal indef_amd64 mismatch None
     = Ok (set_Points mismatch 76, None).
Proof. vm_compute. auto. Qed.

(** C8 (aggregate failure): with the date, the time and the total all
    wrong the [else] block collects the three failures in its own [err],
    whose message lists them; [ReadReceipt] returns a nil error, so nothing
    is reported and the receipt is taken as accepted. *)
Theorem failures_collected_not_reported :
  (exists e,
     else_block parseDecimal indef_amd64 all_wrong
     = Ok (set_Points all_wrong 76, Some e)
     /\ Error e
        = newline ++ "invalid Purchase Date Format "
          ++ newline ++ "invalid Purchase Time Format "
          ++ newline ++ "total Price does not match item prices ")
  /\ ReadReceipt parseDecimal indef_amd64 all_wrong None
     = Ok (set_Points all_wrong 76, None).
Proof.
  split; [|vm_compute; reflexivity].
  eexists. split; vm_compute; reflexivity.
Qed.

(** C9 (slice out of range): with at least one item and a purchase date or
    a purchase time shorter than two bytes, [ReadReceipt] does not return:
    the slice expression of line 105 or of line 114 panics. *)
Theorem short_date_or_time_panics
  (ParseFloat : string -> float64) (int_indef : float64 -> Z) (r : Receipt) :
  Items r <> [] ->
  len (PurchaseDate r) < 2 \/ len (PurchaseTime r) < 2 ->
  exists lo hi n,
    ReadReceipt ParseFloat int_indef r None
    = Panic (slice_bounds_out_of_range lo hi n).
Proof.
  intros Hitems Hshort. unfold ReadReceipt, else_block. cbv zeta.
  destruct (Items r) as [|item rest]; [congruence|].
  match goal with
  | |- context [item_loop ParseFloat int_indef r (item :: rest) ?st] =>
      destruct (item_loop_panics ParseFloat int_indef r item rest st Hshort)
        as (lo & hi & n & Hp); rewrite Hp
  end.
  cbn [bind]. eauto.
Qed.

Lemma short_date_or_time_panics_witness :
  Items short_date <> []
  /\ (len (PurchaseDate short_date) < 2 \/ len (PurchaseTime short_date) < 2)
  /\ exists lo hi n,
       ReadReceipt parseDecimal indef_amd64 short_date None
       = Panic (slice_bounds_out_of_range lo hi n).
Proof.
  assert (H1 : Items short_date <> []) by discriminate.
  assert (H2 : len (PurchaseDate short_date) < 2 \/ len (PurchaseTime short_date) < 2)
    by (left; reflexivity).
  split; [exact H1|]. split; [exact H2|].
  exact (short_date_or_time_panics parseDecimal indef_amd64 short_date H1 H2).
Defined.

(** C10 (prefix anchoring): the date check passes on every string whose
    first 10 bytes match the date pattern, and the time check on every
    string whose first 5 bytes match the time pattern, whatever follows. *)
Theorem format_checks_ignore_trailing (re : regexp) (n : nat) (s : string) :
  In (re, n) [(isdate, 10%nat); (istime, 5%nat)] ->
  MatchString re (substring 0 n s) = true ->
  MatchString re s = true.
Proof.
  intros Hin H.
  assert (Heot : end_of_text re = false).
  { destruct Hin as [E|[E|[]]]; injection E as <- _; reflexivity. }
  destruct (substring_prefix n s) as [t Ht].
  rewrite Ht. unfold MatchString in *. rewrite Heot in *.
  now apply match_here_app.
Qed.

Lemma format_checks_ignore_trailing_witness :
  MatchString isdate "2022-01-01XYZ" = true
  /\ MatchString istime "13:01abc" = true.
Proof.
  split.
  - apply (format_checks_ignore_trailing isdate 10 "2022-01-01XYZ").
    + left. reflexivity.
    + reflexivity.
  - apply (format_checks_ignore_trailing istime 5 "13:01abc").
    + right. left. reflexivity.
    + reflexivity.
Defined.

(** C7 as stated fails: the date "2022-01-01-1" passes the format check,
    its last two bytes parse as the odd integer -1, and the rule adds
    nothing, because [-1 % 2] is [-1] in Go. *)
Lemma odd_day_claim_fails :
  ~ (forall (r r' : Receipt) (e : option error) (day : string) (n : Z),
       slice_from (PurchaseDate r) (len (PurchaseDate r) - 2) = Ok day ->
       Atoi day = (n, true) ->
       Z.odd n = true ->
       ReadReceipt parseDecimal indef_amd64 r None = Ok (r', e) ->
       Points r'
       = Int64.wrap (score_without_day parseDecimal indef_amd64 r
                     + 6 * item_count r)).
Proof.
  intros H.
  specialize (H negative_day (set_Points negative_day 76) None "-1" (-1)
                eq_refl eq_refl eq_refl eq_refl).
  vm_compute in H. discriminate.
Qed.

(** C7, amended (odd purchase day): when [ReadReceipt] returns and the last
    two bytes of the purchase date parse as a positive odd integer, the
    points are the wrapped sum of the other rules' contributions and of
    [6 * itemCount]. *)
Theorem odd_day_contributes_six_per_item
  (ParseFloat : string -> float64) (int_indef : float64 -> Z)
  (r r' : Receipt) (e : option error) (day : string) (n : Z) :
  slice_from (PurchaseDate r) (len (PurchaseDate r) - 2) = Ok day ->
  Atoi day = (n, true) ->
  Z.odd n = true ->
  0 < n ->
  ReadReceipt ParseFloat int_indef r None = Ok (r', e) ->
  Points r'
  = Int64.wrap (score_without_day ParseFloat int_indef r + 6 * item_count r).
Proof.
  intros Hday Hatoi Hodd Hpos HR.
  apply ReadReceipt_points in HR. subst r'. cbn [Points set_Points].
  f_equal. unfold score. f_equal.
  unfold day_points. rewrite Hday, Hatoi. cbn [fst].
  rewrite Z.rem_mod_nonneg by lia.
  rewrite Zmod_odd, Hodd.
  cbn [Z.eqb Pos.eqb]. apply Z.mul_comm.
Qed.

Lemma odd_day_contributes_six_per_item_witness :
  Points (set_Points target 12)
  = Int64.wrap (score_without_day parseDecimal indef_amd64 target
                + 6 * item_count target).
Proof.
  apply (odd_day_contributes_six_per_item parseDecimal indef_amd64
           target (set_Points target 12) None "01" 1).
  - reflexivity.
  - reflexivity.
  - reflexivity.
  - lia.
  - vm_compute. reflexivity.
Defined.

(** C4 as stated fails: a receipt with one item priced "-1000.5" and the
    same total passes every check and is given -974 points. *)
Lemma points_claim_fails :
  ~ (forall (r r' : Receipt) (e : option error),
       ReadReceipt parseDecimal indef_amd64 r None = Ok (r', e) ->
       0 <= Points r').
Proof.
  intros H.
  specialize (H negative_price (set_Points negative_price (-974)) None eq_refl).
  cbn in H. lia.
Qed.

(** C4, amended (non-negative points): when [ReadReceipt] returns on a
    receipt with fewer than [2^30] items, a retailer name shorter than
    [2^30] bytes and item prices that all parse to a float64 that is a zero
    or finite, not negative and below [2^30], the points are not negative. *)
Theorem points_nonneg_for_small_prices
  (ParseFloat : string -> float64) (int_indef : float64 -> Z)
  (r r' : Receipt) (e : option error) :
  (forall item, In item (Items r) -> small_price (ParseFloat (Price item)) = true) ->
  item_count r < 2 ^ 30 ->
  len (Retailer r) < 2 ^ 30 ->
  ReadReceipt ParseFloat int_indef r None = Ok (r', e) ->
  0 <= Points r'.
Proof.
  intros Hprices Hcount Hname HR.
  apply ReadReceipt_points in HR. subst r'. cbn [Points set_Points].
  pose proof (score_bounds ParseFloat int_indef r Hprices) as [Hlo Hhi].
  rewrite wrap_small; [exact Hlo|].
  unfold Int64.min_int, Int64.max_int.
  pose proof (Zle_0_nat (List.length (Items r))) as Hn.
  unfold item_count in *. unfold len in *.
  pose proof (Zle_0_nat (String.length (Retailer r))) as Hl.
  split; [lia|]. nia.
Qed.

Lemma points_nonneg_for_small_prices_witness :
  0 <= Points (set_Points target_two 30).
Proof.
  apply (points_nonneg_for_small_prices parseDecimal indef_amd64 target_two
           (set_Points target_two 30) None).
  - intros item [<-|[<-|[]]]; vm_compute; reflexivity.
  - vm_compute. reflexivity.
  - vm_compute. reflexivity.
  - vm_compute. reflexivity.
Defined.

(** * Further properties of the code *)

(** ** The routes *)

Section RouterFacts.

Variable ParseFloat : string -> float64.
Variable int_indef : float64 -> Z.

(** The score does not read the [Points] field. *)
Lemma score_set_Points (r : Receipt) (p : Z) :
  score ParseFloat int_indef (set_Points r p) = score ParseFloat int_indef r.
Proof. reflexivity. Qed.

(** What the POST handler does when it completes. *)
Lemma post_spec (db db' : DB.t Receipt) (receipt : Receipt)
  (decodeErr : option error) (uuid : string) (resp : response) :
  post_receipts_process ParseFloat int_indef db receipt decodeErr uuid
  = Ok (db', resp) ->
  match decodeErr with
  | Some _ => db' = db /\ resp = JSON 400 (H_msg_err decodeErr)
  | None =>
      let scored := set_Points receipt (Int64.wrap (score ParseFloat int_indef receipt)) in
      db' = DB.add uuid scored db /\ resp = JSON 200 (H_uuid_receipt uuid scored)
  end.
Proof.
  unfold post_receipts_process.
  destruct decodeErr as [e|].
  - cbn. intros H. injection H as <- <-. auto.
  - destruct (ReadReceipt ParseFloat int_indef receipt None) as [[r' e]|] eqn:HR;
      cbn [bind]; [|discriminate].
    pose proof (ReadReceipt_returns_nil _ _ _ _ _ HR) as ->.
    pose proof (ReadReceipt_points _ _ _ _ _ HR) as ->.
    intros H. injection H as <- <-. cbv zeta. auto.
Qed.

(** X1 (round trip): after a POST that completes on a decoded receipt, a
    GET of the points under the identifier handed out answers 200 with
    the wrapped sum of the rule contributions of that receipt. *)
Theorem post_then_get_points (db db' : DB.t Receipt) (receipt : Receipt)
  (uuid : string) (resp : response) :
  post_receipts_process ParseFloat int_indef db receipt None uuid
  = Ok (db', resp) ->
  get_receipts_points db' None {| ID := uuid |}
  = JSON 200 (H_points (Int64.wrap (score ParseFloat int_indef receipt))).
Proof.
  intros H. apply post_spec in H. cbv zeta in H. destruct H as [-> _].
  unfold get_receipts_points. cbn [ID].
  rewrite DBFacts.add_eq_o by reflexivity. reflexivity.
Qed.

(** X2 (only undecodable bodies are refused): when the POST handler
    completes, it answers 400 exactly when the body failed to decode, and
    then leaves the database as it was; otherwise it answers 200. *)
Theorem post_rejects_only_undecodable (db db' : DB.t Receipt) (receipt : Receipt)
  (decodeErr : option error) (uuid : string) (resp : response) :
  post_receipts_process ParseFloat int_indef db receipt decodeErr uuid
  = Ok (db', resp) ->
  (code resp = 400 <-> decodeErr <> None)
  /\ (code resp = 200 <-> decodeErr = None)
  /\ (decodeErr <> None -> db' = db).
Proof.
  intros H. apply post_spec in H. destruct decodeErr as [e|].
  - destruct H as [-> ->]. cbn [code].
    repeat split; try discriminate; auto.
  - cbv zeta in H. destruct H as [-> ->]. cbn [code].
    repeat split; try discriminate; try congruence.
Qed.

(** X3 (every decoded receipt is accepted): on a decoded receipt with no
    items, or with two bytes at least in the date and in the time, the POST
    handler answers 200 and stores the scored receipt under the new
    identifier, whatever the date, time and total checks found. *)
Theorem post_accepts_every_decoded_receipt (db : DB.t Receipt) (receipt : Receipt)
  (uuid : string) :
  Items receipt = []
  \/ (2 <= len (PurchaseDate receipt) /\ 2 <= len (PurchaseTime receipt)) ->
  let scored := set_Points receipt (Int64.wrap (score ParseFloat int_indef receipt)) in
  post_receipts_process ParseFloat int_indef db receipt None uuid
  = Ok (DB.add uuid scored db, JSON 200 (H_uuid_receipt uuid scored)).
Proof.
  intros H scored. unfold post_receipts_process.
  rewrite (ReadReceipt_returns ParseFloat int_indef receipt H). reflexivity.
Qed.

(** X4 (other identifiers untouched): a POST does not change what a GET
    of the points answers for any identifier other than the one it hands
    out. *)
Theorem post_keeps_other_ids (db db' : DB.t Receipt) (receipt : Receipt)
  (decodeErr : option error) (uuid : string) (resp : response) (uri : URI)
  (bindErr : option error) :
  post_receipts_process ParseFloat int_indef db receipt decodeErr uuid
  = Ok (db', resp) ->
  ID uri <> uuid ->
  get_receipts_points db' bindErr uri = get_receipts_points db bindErr uri.
Proof.
  intros H Hne. apply post_spec in H. destruct decodeErr as [e|].
  - destruct H as [-> _]. reflexivity.
  - cbv zeta in H. destruct H as [-> _].
    unfold get_receipts_points. destruct bindErr; [reflexivity|].
    cbv zeta. rewrite DBFacts.add_neq_o by congruence. reflexivity.
Qed.





End RouterFacts.

Lemma post_then_get_points_witness :
  get_receipts_points
    (DB.add "id1" (set_Points target 12) (DB.empty Receipt)) None {| ID := "id1" |}
  = JSON 200 (H_points (Int64.wrap (score parseDecimal indef_amd64 target))).
Proof.
  apply (post_then_get_points parseDecimal indef_amd64 (DB.empty Receipt)
           (DB.add "id1" (set_Points target 12) (DB.empty Receipt)) target "id1"
           (JSON 200 (H_uuid_receipt "id1" (set_Points target 12)))).
  vm_compute. reflexivity.
Defined.

Lemma post_rejects_only_undecodable_witness :
  (code (JSON 400 (H_msg_err (Some (New "EOF")))) = 400 <-> Some (New "EOF") <> None)
  /\ (code (JSON 400 (H_msg_err (Some (New "EOF")))) = 200 <-> Some (New "EOF") = None)
  /\ (Some (New "EOF") <> None -> DB.empty Receipt = DB.empty Receipt).
Proof.
  apply (post_rejects_only_undecodable parseDecimal indef_amd64 (DB.empty Receipt)
           (DB.empty Receipt) all_wrong (Some (New "EOF")) "id1"
           (JSON 400 (H_msg_err (Some (New "EOF"))))).
  vm_compute. reflexivity.
Defined.

Lemma post_accepts_every_decoded_receipt_witness :
  post_receipts_process parseDecimal indef_amd64 (DB.empty Receipt) all_wrong None "id1"
  = Ok (DB.add "id1"
          (set_Points all_wrong (Int64.wrap (score parseDecimal indef_amd64 all_wrong)))
          (DB.empty Receipt),
        JSON 200
          (H_uuid_receipt "id1"
             (set_Points all_wrong
                (Int64.wrap (score parseDecimal indef_amd64 all_wrong))))).
Proof.
  apply (post_accepts_every_decoded_receipt parseDecimal indef_amd64
           (DB.empty Receipt) all_wrong "id1").
  left. reflexivity.
Defined.

Lemma post_keeps_other_ids_witness :
  get_receipts_points
    (DB.add "id1" (set_Points target 12) (DB.empty Receipt)) None {| ID := "id2" |}
  = get_receipts_points (DB.empty Receipt) None {| ID := "id2" |}.
Proof.
  apply (post_keeps_other_ids parseDecimal indef_amd64 (DB.empty Receipt)
           (DB.add "id1" (set_Points target 12) (DB.empty Receipt)) target None "id1"
           (JSON 200 (H_uuid_receipt "id1" (set_Points target 12)))).
  - vm_compute. reflexivity.
  - discriminate.
Defined.




(** ** Facts checked on all 256 bytes *)

Lemma all_bytes_complete (c : ascii) : In c all_bytes.
Proof.
  unfold all_bytes. rewrite <- (ascii_nat_embedding c).
  apply in_map, in_seq. pose proof (nat_ascii_bounded c). lia.
Qed.

Lemma forall_bytes (P : ascii -> bool) :
  forallb P all_bytes = true -> forall c, P c = true.
Proof.
  intros H c. rewrite forallb_forall in H. apply H, all_bytes_complete.
Qed.

Lemma alnum_is_ascii (c : ascii) : is_alnum c = true -> Utf8.byte c < 128.
Proof.
  intros H.
  pose proof (forall_bytes (fun c => implb (is_alnum c) (Utf8.byte c <? 128))
                ltac:(vm_compute; reflexivity) c) as G.
  cbv beta in G. rewrite H in G. cbn [implb] in G. now apply Z.ltb_lt.
Qed.

Lemma lead_facts (c : ascii) (sz : nat) (lo hi : Z) :
  Utf8.lead c = Some (sz, lo, hi) ->
  is_alnum c = false /\ 128 <= lo.
Proof.
  intros H.
  pose proof (forall_bytes
                (fun c => match Utf8.lead c with
                          | Some (_, lo, _) => negb (is_alnum c) && (128 <=? lo)
                          | None => true
                          end)
                ltac:(vm_compute; reflexivity) c) as G.
  cbv beta in G. rewrite H in G. apply andb_true_iff in G. destruct G as [G1 G2].
  split; [now apply negb_true_iff|now apply Z.leb_le].
Qed.

Lemma between_not_alnum (lo hi : Z) (c : ascii) :
  128 <= lo -> Utf8.between lo hi c = true -> is_alnum c = false.
Proof.
  intros Hlo H. unfold Utf8.between in H. apply andb_true_iff in H.
  destruct H as [H _]. apply Z.leb_le in H.
  destruct (is_alnum c) eqn:E; [|reflexivity].
  apply alnum_is_ascii in E. lia.
Qed.

(** ** The retailer rule counts ASCII letters and digits *)

Lemma isalpha_single (c : ascii) :
  MatchString isalpha (String c "") = is_alnum c.
Proof.
  unfold MatchString, isalpha, is_alnum. cbn [atoms end_of_text match_here orb].
  now rewrite andb_true_r.
Qed.

Lemma isalpha_head (c : ascii) (r : string) :
  is_alnum c = false -> MatchString isalpha (String c r) = false.
Proof.
  unfold MatchString, isalpha, is_alnum. cbn [atoms end_of_text match_here orb].
  intros ->. reflexivity.
Qed.

Lemma substring_0_0 (s : string) : substring 0 0 s = "".
Proof. now destruct s. Qed.

Lemma substring_all (s : string) : substring 0 (String.length s) s = s.
Proof. induction s as [|c s IH]; cbn; congruence. Qed.

(** One step of [explode]: the element split off starts the string, what
    is left is shorter, and the element counts for the rule exactly when
    it is a single ASCII letter or digit. *)
Lemma explode_step (c0 : ascii) (r : string) :
  let s := String c0 r in
  let w := Utf8.width s in
  exists rest,
    substring w (String.length s - w) s = rest
    /\ (String.length rest < String.length s)%nat
    /\ ((if MatchString isalpha (substring 0 w s) then 1 else 0)
        + count_alnum rest = count_alnum s)%nat.
Proof.
  cbv zeta.
  assert (W1 : exists rest,
             substring 1 (String.length (String c0 r) - 1) (String c0 r) = rest
             /\ (String.length rest < String.length (String c0 r))%nat
             /\ ((if MatchString isalpha (substring 0 1 (String c0 r)) then 1 else 0)
                 + count_alnum rest = count_alnum (String c0 r))%nat).
  { exists r. cbn [String.length substring Nat.sub].
    rewrite Nat.sub_0_r, substring_all, substring_0_0, isalpha_single.
    split; [reflexivity|split; [lia|reflexivity]]. }
  unfold Utf8.width.
  destruct (Utf8.lead c0) as [[[sz lo] hi]|] eqn:Hl; [|exact W1].
  apply lead_facts in Hl. destruct Hl as [Ha Hlo].
  destruct r as [|c1 r1]; [exact W1|].
  destruct (Utf8.between lo hi c1) eqn:B1; cbn [negb]; [|exact W1].
  pose proof (between_not_alnum _ _ _ Hlo B1) as A1.
  destruct (sz <=? 2)%nat.
  { exists r1. cbn [String.length substring Nat.sub].
    rewrite Nat.sub_0_r, substring_all, substring_0_0.
    rewrite isalpha_head by assumption.
    split; [reflexivity|split; [lia|]]. cbn [count_alnum]. rewrite Ha, A1. reflexivity. }
  destruct r1 as [|c2 r2]; [exact W1|].
  destruct (Utf8.between 128 191 c2) eqn:B2; cbn [negb]; [|exact W1].
  pose proof (between_not_alnum 128 191 c2 ltac:(lia) B2) as A2.
  destruct (sz <=? 3)%nat.
  { exists r2. cbn [String.length substring Nat.sub].
    rewrite Nat.sub_0_r, substring_all, substring_0_0.
    rewrite isalpha_head by assumption.
    split; [reflexivity|split; [lia|]]. cbn [count_alnum]. rewrite Ha, A1, A2. reflexivity. }
  destruct r2 as [|c3 r3]; [exact W1|].
  destruct (Utf8.between 128 191 c3) eqn:B3; cbn [negb]; [|exact W1].
  pose proof (between_not_alnum 128 191 c3 ltac:(lia) B3) as A3.
  exists r3. cbn [String.length substring Nat.sub].
  rewrite Nat.sub_0_r, substring_all, substring_0_0.
  rewrite isalpha_head by assumption.
  split; [reflexivity|split; [lia|]]. cbn [count_alnum]. rewrite Ha, A1, A2, A3. reflexivity.
Qed.

Lemma explode_count (fuel : nat) :
  forall s, (String.length s <= fuel)%nat ->
  List.length (filter (MatchString isalpha) (Utf8.explode fuel s)) = count_alnum s.
Proof.
  induction fuel as [|fuel IH]; intros s Hlen.
  - destruct s; [reflexivity|cbn in Hlen; lia].
  - destruct s as [|c0 r]; [reflexivity|].
    cbn [Utf8.explode].
    destruct (explode_step c0 r) as (rest & Hrest & Hshort & Hcount).
    cbv zeta in Hrest, Hshort, Hcount. rewrite Hrest.
    cbn [filter]. rewrite <- Hcount.
    destruct (MatchString isalpha _); cbn [List.length];
      rewrite IH by (cbn [String.length] in *; lia); reflexivity.
Qed.

Lemma retailer_points_count (name : string) :
  retailer_points name = Z.of_nat (count_alnum name).
Proof.
  unfold retailer_points, Utf8.Split. now rewrite explode_count.
Qed.

Lemma count_alnum_length (s : string) : (count_alnum s <= String.length s)%nat.
Proof.
  induction s as [|c s IH]; cbn [count_alnum String.length]; [lia|].
  destruct (is_alnum c); lia.
Qed.

(** X7 (retailer rule): started from a non-negative [points] that leaves
    room for one point per byte of the name, the loop over the elements of
    [strings.Split(name, "")] adds exactly the number of bytes of the name
    that are ASCII letters or digits; bytes of multi-byte or invalid
    sequences add nothing. *)
Theorem retailer_loop_counts_alnum (name : string) (points : Z) :
  0 <= points ->
  points + len name <= Int64.max_int ->
  retailer_loop (Utf8.Split name) points
  = points + Z.of_nat (count_alnum name).
Proof.
  intros H0 Hmax.
  destruct (retailer_loop_spec (Utf8.Split name) points) as [E F].
  pose proof (count_alnum_length name) as Hc. unfold len in Hmax.
  rewrite <- F.
  - rewrite E. fold (retailer_points name). rewrite retailer_points_count.
    apply wrap_small. unfold Int64.min_int, Int64.max_int in *. lia.
  - apply wrap_small. unfold Int64.min_int, Int64.max_int in *. lia.
Qed.

Lemma retailer_loop_counts_alnum_witness :
  retailer_loop (Utf8.Split "M&M Corner Market") 75
  = 75 + Z.of_nat (count_alnum "M&M Corner Market").
Proof.
  apply (retailer_loop_counts_alnum "M&M Corner Market" 75).
  - lia.
  - vm_compute. discriminate.
Defined.


(** ** The afternoon rule *)

Lemma len_two (a b : ascii) (rest : string) :
  (2 <=? len (String a (String b rest))) = true.
Proof. apply Z.leb_le. unfold len. cbn [String.length]. lia. Qed.

Lemma slice_to_two (a b : ascii) (rest : string) :
  slice_to (String a (String b rest)) 2 = Ok (String a (String b "")).
Proof.
  unfold slice_to. rewrite len_two. cbn [andb Z.leb Z.compare].
  change (Z.to_nat 2) with 2%nat. cbn [substring].
  now rewrite substring_0_0.
Qed.



(** ** The odd-day rule *)









(** X10 (when [ReadReceipt] returns): on a decoded receipt [ReadReceipt]
    returns, rather than panics, exactly when the receipt has no items or
    both the purchase date and the purchase time have two bytes at least. *)
Theorem ReadReceipt_returns_iff
  (ParseFloat : string -> float64) (int_indef : float64 -> Z) (r : Receipt) :
  (exists out, ReadReceipt ParseFloat int_indef r None = Ok out)
  <-> Items r = []
      \/ (2 <= len (PurchaseDate r) /\ 2 <= len (PurchaseTime r)).
Proof.
  split.
  - intros [out H].
    destruct (Items r) as [|item rest] eqn:Hitems; [now left|right].
    destruct (Z_lt_le_dec (len (PurchaseDate r)) 2) as [Hd|Hd];
      [|destruct (Z_lt_le_dec (len (PurchaseTime r)) 2) as [Ht|Ht]]; [| |auto].
    + exfalso. unfold ReadReceipt, else_block in H. cbv zeta in H.
      rewrite Hitems in H.
      match type of H with
      | context [item_loop ParseFloat int_indef r (item :: rest) ?st] =>
          destruct (item_loop_panics ParseFloat int_indef r item rest st
                      (or_introl Hd)) as (lo & hi & n & Hp);
          rewrite Hp in H
      end.
      discriminate.
    + exfalso. unfold ReadReceipt, else_block in H. cbv zeta in H.
      rewrite Hitems in H.
      match type of H with
      | context [item_loop ParseFloat int_indef r (item :: rest) ?st] =>
          destruct (item_loop_panics ParseFloat int_indef r item rest st
                      (or_intror Ht)) as (lo & hi & n & Hp);
          rewrite Hp in H
      end.
      discriminate.
  - intros H. eexists. now apply ReadReceipt_returns.
Qed.

(** ** The date check *)

Lemma class_1_9 (c : ascii) :
  in_class c [("1", "9")]%char = true -> c <> "0"%char.
Proof.
  intros H E.
  pose proof (forall_bytes
                (fun c => implb (in_class c [("1", "9")]%char)
                                (negb (Ascii.eqb c "0")))
                ltac:(vm_compute; reflexivity) c) as G.
  cbv beta in G. rewrite H, E in G. discriminate.
Qed.

Lemma class_0_2 (c : ascii) :
  in_class c [("0", "2")]%char = true -> c <> "3"%char.
Proof.
  intros H E.
  pose proof (forall_bytes
                (fun c => implb (in_class c [("0", "2")]%char)
                                (negb (Ascii.eqb c "3")))
                ltac:(vm_compute; reflexivity) c) as G.
  cbv beta in G. rewrite H, E in G. discriminate.
Qed.

(** X11 (dates the check refuses): the date check fails on every string
    with "0" as its seventh byte or "3" as its ninth: no date in October
    (or in a month numbered 00 or 10) and no 30th or 31st passes it. *)
Theorem date_check_rejects (purchaseDate : string) :
  String.get 6 purchaseDate = Some "0"%char
  \/ String.get 8 purchaseDate = Some "3"%char ->
  MatchString isdate purchaseDate = false.
Proof.
  intros H.
  destruct (MatchString isdate purchaseDate) eqn:M; [exfalso|reflexivity].
  unfold MatchString, isdate in M. cbn [atoms end_of_text match_here] in M.
  destruct purchaseDate as [|y1 [|y2 [|y3 [|y4 [|h1 [|m1 [|m2 [|h2 [|d1 rest]]]]]]]]];
    cbn [String.get] in H;
    try (destruct H as [H|H]; discriminate H);
    cbn [take_class] in M;
    destruct (in_class y1 _); try discriminate;
    destruct (in_class y2 _); try discriminate;
    destruct (in_class y3 _); try discriminate;
    destruct (in_class y4 _); try discriminate;
    cbn [match_here] in M;
    try (rewrite ?andb_false_r in M; discriminate M).
  repeat match type of M with
         | _ && _ = true => apply andb_true_iff in M; destruct M as [? M]
         end.
  destruct H as [H|H]; injection H as ->.
  - eapply class_1_9; eauto.
  - eapply class_0_2; eauto.
Qed.

Lemma date_check_rejects_witness :
  MatchString isdate "2022-10-15" = false
  /\ MatchString isdate "2022-03-31" = false.
Proof.
  split.
  - apply (date_check_rejects "2022-10-15"). left. reflexivity.
  - apply (date_check_rejects "2022-03-31"). right. reflexivity.
Defined.

(** ** The two rules on the total *)

Lemma binary_round_opp (k : positive) (e : Z) :
  binary_round prec emax true k e = SFopp (binary_round prec emax false k e).
Proof.
  unfold binary_round. destruct (shl_align k e _) as [mz ez].
  unfold binary_round_aux.
  destruct (shr_fexp prec emax (Zpos mz) ez loc_Exact) as [mrs1 e1].
  destruct (shr_fexp prec emax _ e1 loc_Exact) as [mrs2 e2].
  destruct (shr_m mrs2); [reflexivity| |reflexivity].
  destruct (e2 <=? emax - prec); reflexivity.
Qed.

(** The remainder of a float by [2^ey], a power of two between the
    smallest positive float and 1, compares equal to 0 exactly when the
    integer remainder of the aligned mantissas is 0. *)
Lemma Mod_pow2_zero (s : bool) (m : positive) (e ey : Z) :
  bounded prec emax m e = true ->
  -1074 <= ey <= -52 ->
  eqb (Mod (S754_finite s m e) (S754_finite false 4503599627370496 ey)) zero
  = (Z.rem (Z.shiftl (Zpos m) (e - Z.min e ey))
           (Z.shiftl 4503599627370496 (ey - Z.min e ey)) =? 0).
Proof.
  intros Hb Hey. apply bounded_facts in Hb. destruct Hb as [He Hm].
  unfold Mod.
  set (ez := Z.min e ey).
  set (X := Z.shiftl (Zpos m) (e - ez)).
  set (Y := Z.shiftl 4503599627370496 (ey - ez)).
  assert (HX : X = Zpos m * 2 ^ (e - ez))
    by (subst X; apply Z.shiftl_mul_pow2; lia).
  assert (HY : Y = 2 ^ 52 * 2 ^ (ey - ez))
    by (subst Y; apply Z.shiftl_mul_pow2; lia).
  assert (Yp : 0 < 2 ^ (ey - ez)) by (apply Z.pow_pos_nonneg; lia).
  assert (Xp : 0 < 2 ^ (e - ez)) by (apply Z.pow_pos_nonneg; lia).
  assert (HR : Z.rem X Y = X mod Y) by (apply Z.rem_mod_nonneg; nia).
  rewrite HR.
  pose proof (Z.mod_pos_bound X Y ltac:(nia)) as [R0 RY].
  pose proof (Z.mod_le X Y ltac:(nia) ltac:(nia)) as RX.
  destruct (X mod Y =? 0) eqn:Hz; [now destruct s|].
  apply Z.eqb_neq in Hz.
  destruct (X mod Y) as [|R|R] eqn:HRR; [lia| |lia].
  destruct (binary_round_exact R ez) as (mf & ef & E & Hef & Hv).
  - destruct (Z_le_gt_dec e ey).
    + replace (e - ez) with 0 in HX by lia. change (2 ^ 0) with 1 in HX. lia.
    + replace (ey - ez) with 0 in HY by lia. change (2 ^ 0) with 1 in HY.
      unfold prec. change (2 ^ 53) with (2 * 2 ^ 52). lia.
  - lia.
  - lia.
  - destruct s; cbn [cond_Zopp Z.opp binary_normalize].
    + rewrite binary_round_opp, E. reflexivity.
    + rewrite E. reflexivity.
Qed.

(** X12 (round dollar implies quarter): every float64 total that earns
    the 50 points of the round-dollar rule also earns the 25 points of the
    quarter rule; the two rules together give 0, 25 or 75. *)
Theorem round_dollar_implies_quarter (total : float64) :
  valid_binary prec emax total = true ->
  round_dollar_points total = 50 ->
  quarter_points total = 25.
Proof.
  intros Hv H50. unfold round_dollar_points, quarter_points in *.
  destruct total as [s|s| |s m e].
  - now destruct s.
  - destruct s; discriminate.
  - discriminate.
  - cbn [valid_binary] in Hv.
    pose proof (bounded_facts m e Hv) as [He Hm].
    unfold one, quarter in *.
    rewrite Mod_pow2_zero in * by (assumption || lia).
    destruct (Z.rem (Z.shiftl (Zpos m) (e - Z.min e (-52))) _ =? 0) eqn:H1;
      [|discriminate].
    apply Z.eqb_eq in H1.
    rewrite Z.shiftl_mul_pow2 in H1 by lia.
    rewrite Z.shiftl_mul_pow2 in H1 by lia.
    assert (P1 : 0 < 2 ^ (e - Z.min e (-52))) by (apply Z.pow_pos_nonneg; lia).
    assert (Q1 : 0 < 2 ^ (-52 - Z.min e (-52))) by (apply Z.pow_pos_nonneg; lia).
    apply Z.rem_divide in H1; [|lia].
    destruct H1 as [k Hk].
    replace (Z.rem _ _ =? 0) with true; [reflexivity|].
    symmetry. apply Z.eqb_eq.
    rewrite !Z.shiftl_mul_pow2 by lia.
    assert (P2 : 0 < 2 ^ (e - Z.min e (-54))) by (apply Z.pow_pos_nonneg; lia).
    assert (Q2 : 0 < 2 ^ (-54 - Z.min e (-54))) by (apply Z.pow_pos_nonneg; lia).
    apply Z.rem_divide; [lia|].
    exists (4 * k).
    (* both sides, times 2^(min e (-54) + 1074) *)
    assert (S2 : 0 < 2 ^ (Z.min e (-54) + 1074)) by (apply Z.pow_pos_nonneg; lia).
    apply (Z.mul_reg_r _ _ (2 ^ (Z.min e (-54) + 1074))); [lia|].
    assert (E1 : Zpos m * 2 ^ (e - Z.min e (-54)) * 2 ^ (Z.min e (-54) + 1074)
                 = Zpos m * 2 ^ (e + 1074)).
    { rewrite <- Z.mul_assoc, <- Z.pow_add_r by lia. do 2 f_equal. lia. }
    assert (E2 : Zpos m * 2 ^ (e - Z.min e (-52)) * 2 ^ (Z.min e (-52) + 1074)
                 = Zpos m * 2 ^ (e + 1074)).
    { rewrite <- Z.mul_assoc, <- Z.pow_add_r by lia. do 2 f_equal. lia. }
    assert (E3 : 2 ^ 52 * 2 ^ (-54 - Z.min e (-54)) * 2 ^ (Z.min e (-54) + 1074)
                 = 2 ^ 1072).
    { rewrite <- !Z.pow_add_r by lia. f_equal. lia. }
    assert (E4 : 2 ^ 52 * 2 ^ (-52 - Z.min e (-52)) * 2 ^ (Z.min e (-52) + 1074)
                 = 4 * 2 ^ 1072).
    { rewrite <- !Z.pow_add_r by lia. change 4 with (2 ^ 2).
      rewrite <- Z.pow_add_r by lia. f_equal. lia. }
    rewrite E1, <- E2, Hk.
    change 4503599627370496 with (2 ^ 52) in *.
    replace (4 * k * (2 ^ 52 * 2 ^ (-54 - Z.min e (-54))) * 2 ^ (Z.min e (-54) + 1074))
      with (4 * k * (2 ^ 52 * 2 ^ (-54 - Z.min e (-54)) * 2 ^ (Z.min e (-54) + 1074)))
      by ring.
    rewrite E3.
    replace (k * (2 ^ 52 * 2 ^ (-52 - Z.min e (-52))) * 2 ^ (Z.min e (-52) + 1074))
      with (k * (2 ^ 52 * 2 ^ (-52 - Z.min e (-52)) * 2 ^ (Z.min e (-52) + 1074)))
      by ring.
    rewrite E4. ring.
Qed.

Lemma round_dollar_implies_quarter_witness :
  quarter_points (parseDecimal "9.00") = 25.
Proof.
  apply (round_dollar_implies_quarter (parseDecimal "9.00")).
  - vm_compute. reflexivity.
  - vm_compute. reflexivity.
Defined.

(** ** Whole-dollar prices *)

Lemma shr_1_even (m : Z) :
  0 <= m -> (2 | m) ->
  shr_1 {| shr_m := m; shr_r := false; shr_s := false |}
  = {| shr_m := m / 2; shr_r := false; shr_s := false |}.
Proof.
  intros H0 [k Hk]. destruct m as [|[p|p|]|p]; try lia; cbn [shr_1 orb].
  - reflexivity.
  - f_equal. apply Z.div_unique with (r := 0); lia.
Qed.

(** Shifting out [n] zero bits loses nothing. *)
Lemma iter_shr_1_exact (n : positive) :
  forall m, 0 <= m -> (2 ^ Zpos n | m) ->
  iter_pos shr_1 n {| shr_m := m; shr_r := false; shr_s := false |}
  = {| shr_m := m / 2 ^ Zpos n; shr_r := false; shr_s := false |}.
Proof.
  assert (Hhalf : forall a m, 0 < a -> 0 <= m -> (2 ^ (a + a) | m) ->
                    (2 ^ a | m) /\ 0 <= m / 2 ^ a /\ (2 ^ a | m / 2 ^ a)
                    /\ m / 2 ^ a / 2 ^ a = m / 2 ^ (a + a)).
  { intros a m Ha Hm [k Hk]. rewrite Z.pow_add_r in Hk by lia.
    assert (P : 0 < 2 ^ a) by (apply Z.pow_pos_nonneg; lia).
    assert (E : m / 2 ^ a = k * 2 ^ a)
      by (subst m; rewrite Z.mul_assoc, Z.div_mul by lia; reflexivity).
    split; [exists (k * 2 ^ a); lia|].
    split; [apply Z.div_pos; lia|].
    split; [exists k; exact E|].
    rewrite Z.div_div by lia. now rewrite Z.pow_add_r by lia. }
  induction n as [n IH|n IH|]; intros m Hm Hd; cbn [iter_pos].
  - replace (Zpos n~1) with (1 + (Zpos n + Zpos n)) in * by lia.
    rewrite Z.pow_add_r in Hd by lia. change (2 ^ 1) with 2 in Hd.
    destruct Hd as [k Hk].
    assert (P : 0 < 2 ^ (Zpos n + Zpos n)) by (apply Z.pow_pos_nonneg; lia).
    assert (E : m / 2 = k * 2 ^ (Zpos n + Zpos n)).
    { symmetry. apply Z.div_unique with (r := 0); lia. }
    rewrite shr_1_even by (try exists (k * 2 ^ (Zpos n + Zpos n)); lia).
    destruct (Hhalf (Zpos n) (m / 2) ltac:(lia) ltac:(apply Z.div_pos; lia)
                ltac:(exists k; exact E)) as (D1 & N1 & D2 & E2).
    rewrite (IH (m / 2)) by (assumption || (apply Z.div_pos; lia)).
    rewrite IH by assumption.
    f_equal. rewrite E2. rewrite Z.div_div by lia.
    f_equal. rewrite (Z.pow_add_r 2 1 (Zpos n + Zpos n)) by lia. reflexivity.
  - replace (Zpos n~0) with (Zpos n + Zpos n) in * by lia.
    destruct (Hhalf (Zpos n) m ltac:(lia) Hm Hd) as (D1 & N1 & D2 & E2).
    rewrite (IH m) by assumption. rewrite IH by assumption.
    f_equal. exact E2.
  - change (2 ^ 1) with 2 in *. now apply shr_1_even.
Qed.

(** Rounding a whole number below [2^53], given with trailing zero bits,
    returns that number. *)
Lemma binary_round_whole (K : positive) (ez N : Z) :
  -1074 <= ez <= -52 -> 0 < N < 2 ^ 53 ->
  Zpos K = N * 2 ^ (- ez) ->
  exists mq eq,
    binary_round prec emax false K ez = S754_finite false mq eq
    /\ -1074 <= eq
    /\ scaled (Zpos mq) eq = N * 2 ^ 1074.
Proof.
  intros Hez HN HK.
  destruct N as [|Np|Np]; try lia.
  assert (Pz : 0 < 2 ^ (- ez)) by (apply Z.pow_pos_nonneg; lia).
  assert (HdK : Zpos (digits2_pos K) = Zpos (digits2_pos Np) + (- ez)).
  { rewrite <- (digits2_shift Np (- ez)) by lia. rewrite <- HK. reflexivity. }
  pose proof (digits2_le Np 53 ltac:(lia) ltac:(lia)) as HdN.
  unfold binary_round.
  set (t := fexp prec emax (Zpos (digits2_pos K) + ez)).
  assert (Ht : t = Zpos (digits2_pos Np) - 53).
  { subst t. unfold fexp. change (emin prec emax) with (-1074). unfold prec. lia. }
  rewrite shl_align_spec.
  replace (t <? ez) with false by (symmetry; apply Z.ltb_ge; lia).
  unfold binary_round_aux, shr_fexp. cbn [Zdigits2]. fold t.
  cbn [shr_record_of_loc].
  destruct (Z.eq_dec t ez) as [Heq|Hne].
  - (* no shift *)
    rewrite Heq, Z.sub_diag. cbn [shr shr_m loc_of_shr_record round_nearest_even Zdigits2].
    fold t. rewrite Heq, Z.sub_diag. cbn [shr shr_record_of_loc shr_m].
    replace (ez <=? emax - prec) with true
      by (symmetry; apply Z.leb_le; unfold emax, prec; lia).
    exists K, ez. split; [reflexivity|]. split; [lia|].
    unfold scaled. rewrite HK, <- Z.mul_assoc, <- Z.pow_add_r by lia.
    do 2 f_equal. lia.
  - assert (Hn : 0 < t - ez) by lia.
    destruct (t - ez) as [|n|n] eqn:En; try lia.
    cbn [shr].
    assert (Pn : 0 < 2 ^ Zpos n) by (apply Z.pow_pos_nonneg; lia).
    assert (Hdiv : Zpos K = (Zpos Np * 2 ^ (- t)) * 2 ^ Zpos n).
    { rewrite HK, <- Z.mul_assoc, <- Z.pow_add_r by lia. do 2 f_equal. lia. }
    rewrite iter_shr_1_exact; [|lia|exists (Zpos Np * 2 ^ (- t)); exact Hdiv].
    cbn [shr_m loc_of_shr_record round_nearest_even].
    assert (Hq : Zpos K / 2 ^ Zpos n = Zpos Np * 2 ^ (- t))
      by (rewrite Hdiv, Z.div_mul by lia; reflexivity).
    rewrite Hq.
    assert (Pt : 0 < 2 ^ (- t)) by (apply Z.pow_pos_nonneg; lia).
    destruct (Zpos Np * 2 ^ (- t)) as [|q|q] eqn:Eq; try lia.
    assert (Hdq : Zpos (digits2_pos q) = Zpos (digits2_pos Np) + (- t)).
    { rewrite <- (digits2_shift Np (- t)) by lia. rewrite Eq. reflexivity. }
    cbn [Zdigits2].
    replace (fexp prec emax (Zpos (digits2_pos q) + (ez + Zpos n)) - (ez + Zpos n)) with 0.
    2:{ unfold fexp. change (emin prec emax) with (-1074). unfold prec. lia. }
    cbn [shr shr_record_of_loc shr_m].
    replace (ez + Zpos n <=? emax - prec) with true
      by (symmetry; apply Z.leb_le; unfold emax, prec; lia).
    exists q, (ez + Zpos n). split; [reflexivity|]. split; [lia|].
    unfold scaled. rewrite <- Eq, <- Z.mul_assoc, <- Z.pow_add_r by lia.
    do 2 f_equal. lia.
Qed.

(** X13 (whole-dollar prices): for every price that is a positive whole
    number of dollars below [2^52], lines 101-102 add the price plus one. *)
Theorem whole_dollar_adds_price_plus_one
  (int_indef : float64 -> Z) (m : positive) (e : Z) :
  bounded prec emax m e = true ->
  eqb (Mod (S754_finite false m e) one) zero = true ->
  Z.shiftl (Zpos m) e < 2 ^ 52 ->
  rounded_price int_indef (S754_finite false m e) = Z.shiftl (Zpos m) e + 1.
Proof.
  intros Hb Hz Hsmall.
  pose proof (bounded_facts m e Hb) as [He Hm].
  unfold one in Hz. rewrite Mod_pow2_zero in Hz by (assumption || lia).
  apply Z.eqb_eq in Hz.
  assert (HMod : Mod (S754_finite false m e) one = S754_zero false).
  { unfold Mod, one. rewrite Hz. reflexivity. }
  unfold rounded_price. rewrite HMod.
  change (sub one (S754_zero false)) with one.
  set (ez := Z.min e (-52)) in *.
  rewrite !Z.shiftl_mul_pow2 in Hz by lia.
  assert (P1 : 0 < 2 ^ (e - ez)) by (apply Z.pow_pos_nonneg; lia).
  assert (Q1 : 0 < 2 ^ (-52 - ez)) by (apply Z.pow_pos_nonneg; lia).
  apply Z.rem_divide in Hz; [|lia]. destruct Hz as [k Hk].
  assert (EY : 4503599627370496 * 2 ^ (-52 - ez) = 2 ^ (- ez)).
  { change 4503599627370496 with (2 ^ 52).
    rewrite <- Z.pow_add_r by lia. f_equal. lia. }
  rewrite EY in Hk.
  assert (Pz : 0 < 2 ^ (- ez)) by (apply Z.pow_pos_nonneg; lia).
  assert (U0 : 0 < 2 ^ 1074) by (apply Z.pow_pos_nonneg; lia).
  assert (Hsc : scaled (Zpos m) e = k * 2 ^ 1074).
  { unfold scaled.
    replace (2 ^ (e + 1074)) with (2 ^ (e - ez) * 2 ^ (ez + 1074))
      by (rewrite <- Z.pow_add_r by lia; f_equal; lia).
    rewrite Z.mul_assoc, Hk, <- Z.mul_assoc, <- Z.pow_add_r by lia.
    do 2 f_equal. lia. }
  assert (Htr : Z.shiftl (Zpos m) e = k).
  { rewrite shiftl_scaled by lia. rewrite Hsc. apply Z.div_mul. lia. }
  rewrite Htr in *.
  assert (Hk0 : 0 < k) by nia.
  (* the sum p + 1 *)
  unfold add, one, SFadd. cbn [cond_Zopp]. fold ez.
  rewrite <- Pos2Z.inj_add. cbn [binary_normalize].
  destruct (binary_round_whole
              (fst (shl_align m e ez) + fst (shl_align 4503599627370496 (-52) ez))
              ez (k + 1)) as (mq & eq & -> & Heq & Hq).
  - lia.
  - lia.
  - rewrite Pos2Z.inj_add.
    apply (Z.mul_reg_r _ _ (2 ^ (ez + 1074)));
      [apply Z.pow_nonzero; lia|].
    rewrite Z.mul_add_distr_r.
    pose proof (shl_align_scaled m e ez ltac:(lia) ltac:(lia)) as A.
    pose proof (shl_align_scaled 4503599627370496 (-52) ez ltac:(lia) ltac:(lia)) as B.
    unfold scaled in A, B. rewrite A, B.
    fold (scaled (Zpos m) e). fold (scaled 4503599627370496 (-52)).
    rewrite Hsc, scaled_one.
    rewrite <- Z.mul_assoc, <- Z.pow_add_r by lia.
    replace (- ez + (ez + 1074)) with 1074 by lia. lia.
  - cbn [to_int]. unfold trunc. cbn [cond_Zopp].
    rewrite shiftl_scaled by lia. rewrite Hq, Z.div_mul by lia.
    replace (Int64.in_range (k + 1)) with true; [reflexivity|].
    symmetry. unfold Int64.in_range, Int64.min_int, Int64.max_int.
    apply andb_true_iff. split; apply Z.leb_le; lia.
Qed.

Lemma whole_dollar_adds_price_plus_one_witness :
  rounded_price indef_amd64 (S754_finite false 5629499534213120 (-49))
  = Z.shiftl 5629499534213120 (-49) + 1.
Proof.
  apply (whole_dollar_adds_price_plus_one indef_amd64 5629499534213120 (-49)).
  - vm_compute. reflexivity.
  - vm_compute. reflexivity.
  - vm_compute. reflexivity.
Defined.

(** ** The afternoon rule is applied once per item *)

(** X14 (afternoon rule, per item): when [ReadReceipt] returns on a receipt
    whose purchase time begins with "14" or "15", the points are the
    wrapped sum of the contributions of the other rules and of
    [10 * itemCount]: the bonus is added in every iteration of the loop
    over the items, and is 0 for a receipt without items. *)
Theorem afternoon_adds_ten_per_item
  (ParseFloat : string -> float64) (int_indef : float64 -> Z)
  (r r' : Receipt) (e : option error) (rest : string) :
  PurchaseTime r = "14" ++ rest \/ PurchaseTime r = "15" ++ rest ->
  ReadReceipt ParseFloat int_indef r None = Ok (r', e) ->
  Points r'
  = Int64.wrap (round_dollar_points (ParseFloat (Total r))
                + quarter_points (ParseFloat (Total r))
                + retailer_points (Retailer r)
                + pair_points (Items r)
                + desc_sum ParseFloat int_indef (Items r)
                + item_count r * day_points (PurchaseDate r)
                + 10 * item_count r).
Proof.
  intros Ht HR. apply ReadReceipt_points in HR. subst r'.
  cbn [Points set_Points]. f_equal.
  unfold score, score_without_day.
  assert (H10 : time_points (PurchaseTime r) = 10).
  { destruct Ht as [-> | ->]; cbn [append]; unfold time_points;
      rewrite slice_to_two; reflexivity. }
  rewrite H10. lia.
Qed.

Lemma afternoon_adds_ten_per_item_witness :
  Points (set_Points corner_market 131)
  = Int64.wrap (round_dollar_points (parseDecimal (Total corner_market))
                + quarter_points (parseDecimal (Total corner_market))
                + retailer_points (Retailer corner_market)
                + pair_points (Items corner_market)
                + desc_sum parseDecimal indef_amd64 (Items corner_market)
                + item_count corner_market * day_points (PurchaseDate corner_market)
                + 10 * item_count corner_market).
Proof.
  apply (afternoon_adds_ten_per_item parseDecimal indef_amd64
           corner_market (set_Points corner_market 131) None ":33").
  - left. reflexivity.
  - vm_compute. reflexivity.
Defined.
